(** * Connect Four minimax player ([try4.py]): model and properties

    A shallow embedding of [MinimaxPlayer]: the board operations
    ([_apply_move], [_check_win]), the two static evaluators and the
    alpha-beta search, followed by the properties of the specification.

    Conventions.
    - A board is the 6x7 [numpy] array of the observation, kept as its
      list of rows; cell values are integers (0 empty, 1 self, -1 opponent).
      Every index the program computes on a 6x7 board is in range, so the
      read [get] gives 0 where [numpy] would raise [IndexError];
      statements that depend on the shape assume [wf].
    - A Python exception is the result [None] of an [option]; the only one
      the program raises itself is the [ValueError] of [_apply_move].
    - Scores are Python numbers that are either integers or the two floats
      [float('inf')] and [float('-inf')]: the type [Score].
    - The search depth is a natural number ([max_depth] is configured as a
      non-negative integer and only ever decremented down to 0). *)

From Stdlib Require Import ZArith Lia Bool String.
From stdpp Require Import base list sorting.

Open Scope Z_scope.

(** ** Errors: the option monad *)

Notation "'do' x <- e ; k" :=
  (match e with Some x => k | None => None end)
  (at level 10, x pattern, e at level 100, k at level 200, only parsing).

(** A [for] loop whose body may raise: left fold in the option monad. *)
Fixpoint for_each {A S : Type} (body : S → A → option S) (l : list A) (s : S)
  : option S :=
  match l with
  | [] => Some s
  | x :: rest => do s' <- body s x; for_each body rest s'
  end.

(** [range(n)] *)
Definition range (n : nat) : list nat := seq 0 n.

(** ** Scores *)

Inductive Score : Type :=
| NegInf : Score            (* float('-inf') *)
| Fin : Z → Score           (* a Python int *)
| PosInf : Score.           (* float('inf') *)

Module Score.

(** [x > y] *)
Definition gt (x y : Score) : bool :=
  match x, y with
  | NegInf, _ => false
  | Fin _, NegInf => true
  | Fin a, Fin b => b <? a
  | Fin _, PosInf => false
  | PosInf, PosInf => false
  | PosInf, _ => true
  end.

(** [x < y] *)
Definition lt (x y : Score) : bool := gt y x.

(** [x <= y] *)
Definition le (x y : Score) : bool :=
  match x, y with
  | NegInf, _ => true
  | Fin _, NegInf => false
  | Fin a, Fin b => a <=? b
  | Fin _, PosInf => true
  | PosInf, PosInf => true
  | PosInf, _ => false
  end.

(** Python's [max(a, b)]: the first argument unless the second is
    strictly larger. *)
Definition max (a b : Score) : Score := if gt b a then b else a.

(** Python's [min(a, b)]: the first argument unless the second is
    strictly smaller. *)
Definition min (a b : Score) : Score := if lt b a then b else a.

End Score.

Declare Scope score_scope.
Delimit Scope score_scope with score.
Notation "x ⪯ y" := (Score.le x y = true) (at level 70) : score_scope.
Notation "x ≺ y" := (Score.lt x y = true) (at level 70) : score_scope.
Local Open Scope score_scope.

(** ** The board *)

Abbreviation Board := (list (list Z)).

(** [board[r, c]] *)
Definition get (board : Board) (r c : nat) : Z :=
  match board !! r with
  | Some row => match row !! c with Some v => v | None => 0 end
  | None => 0
  end.

(** [board[r, c] = v], on a value: the array with that one cell replaced. *)
Definition set_cell (board : Board) (r c : nat) (v : Z) : Board :=
  alter (λ row, <[c := v]> row) r board.

(** The shape of an observation: 6 rows of 7 cells. *)
Definition wf (board : Board) : Prop :=
  length board = 6%nat ∧ Forall (λ row, length row = 7%nat) board.

Definition wfb (board : Board) : bool :=
  (length board =? 6)%nat && forallb (λ row, (length row =? 7)%nat) board.

(** Gravity: in every column a piece has no empty cell beneath it. *)
Definition gravityb (board : Board) : bool :=
  forallb (λ c, forallb (λ r,
    implb (negb (get board r c =? 0)) (negb (get board (S r) c =? 0)))
    (range 5)) (range 7).

Definition gravity (board : Board) : Prop :=
  ∀ r c, (r < 5)%nat → (c < 7)%nat →
    get board r c ≠ 0 → get board (S r) c ≠ 0.

(** ** _apply_move *)

(** The loop [for i in range(5, -1, -1)] of [_apply_move], on the copy
    [new_board]; running off the end of the loop raises [ValueError]. *)
Fixpoint drop_piece (new_board : Board) (rows : list nat) (move : nat)
  (player : Z) : option (Board * nat * nat) :=
  match rows with
  | [] => None
  | i :: rest =>
      if get new_board i move =? 0
      then Some (set_cell new_board i move player, i, move)
      else drop_piece new_board rest move player
  end.

Definition _apply_move (board : Board) (move : nat) (player : Z)
  : option (Board * nat * nat) :=
  let new_board := board in
  drop_piece new_board [5; 4; 3; 2; 1; 0]%nat move player.

(** The same function on a store of arrays, where [board.copy()] allocates
    and the assignment writes through the reference of the copy. *)
Module Store.

Abbreviation Ref := nat.
Abbreviation Heap := (list Board).

Definition copy (h : Heap) (board : Ref) : option (Heap * Ref) :=
  do b <- h !! board; Some (h ++ [b], length h).

Definition read (h : Heap) (board : Ref) (r c : nat) : option Z :=
  do b <- h !! board; Some (get b r c).

Definition write (h : Heap) (board : Ref) (r c : nat) (v : Z) : Heap :=
  alter (λ b, set_cell b r c v) board h.

Fixpoint drop_piece (h : Heap) (new_board : Ref) (rows : list nat)
  (move : nat) (player : Z) : option (Heap * (Ref * nat * nat)) :=
  match rows with
  | [] => None
  | i :: rest =>
      do v <- read h new_board i move;
      if v =? 0
      then Some (write h new_board i move player, (new_board, i, move))
      else drop_piece h new_board rest move player
  end.

Definition _apply_move (h : Heap) (board : Ref) (move : nat) (player : Z)
  : option (Heap * (Ref * nat * nat)) :=
  do (h1, new_board) <- copy h board;
  drop_piece h1 new_board [5; 4; 3; 2; 1; 0]%nat move player.

End Store.

(** ** _check_win *)

Definition directions : list (Z * Z) := [(1, 0); (0, 1); (1, 1); (1, -1)].

(** [range(-3, 4)] *)
Definition steps : list Z := [-3; -2; -1; 0; 1; 2; 3].

(** [0 <= r < 6 and 0 <= c < 7 and board[r, c] == player] *)
Definition owned (board : Board) (player : Z) (r c : Z) : bool :=
  (0 <=? r) && (r <? 6) && (0 <=? c) && (c <? 7)
  && (get board (Z.to_nat r) (Z.to_nat c) =? player).

(** The inner loop of [_check_win] over one direction: [cell step] tells
    whether the cell at that step counts; [true] is the [return True]. *)
Fixpoint scan_line (cell : Z → bool) (steps : list Z) (count : nat) : bool :=
  match steps with
  | [] => false
  | step :: rest =>
      if cell step
      then (if (S count =? 4)%nat then true else scan_line cell rest (S count))
      else scan_line cell rest 0%nat
  end.

Definition _check_win (board : Board) (player : Z) (row col : Z) : bool :=
  existsb (λ '(dr, dc),
    scan_line (λ step, owned board player (row + step * dr) (col + step * dc))
      steps 0%nat) directions.

(** Horizontal reflection of a board: column [c] becomes column [6 - c]. *)
Definition mirror (board : Board) : Board := reverse <$> board.

(** ** The static evaluators *)

(** [window.count(x)] on a window of a line, whose out-of-bounds places hold
    Python's [None] (which equals no number). *)
Fixpoint line_count (x : Z) (window : list (option Z)) : nat :=
  match window with
  | [] => 0%nat
  | Some y :: rest => if y =? x then S (line_count x rest) else line_count x rest
  | None :: rest => line_count x rest
  end.

Definition _evaluate_line (line : list (option Z)) (player : Z) : Z :=
  fold_left (λ score i,
    let window := take 4 (drop i line) in
    if (line_count player window =? 4)%nat then score + 1000
    else if (line_count player window =? 3)%nat
            && (line_count 0 window =? 1)%nat then score + 15
    else if (line_count player window =? 2)%nat
            && (line_count 0 window =? 2)%nat then score + 7
    else if (line_count (- player) window =? 3)%nat
            && (line_count 0 window =? 1)%nat then score - 20
    else score) (range (length line - 3)) 0.

Definition _score_position (board : Board) (row col : Z) (player : Z) : Z :=
  fold_left (λ score '(dr, dc),
    let line := map (λ step,
      let r := row + step * dr in
      let c := col + step * dc in
      if (0 <=? r) && (r <? 6) && (0 <=? c) && (c <? 7)
      then Some (get board (Z.to_nat r) (Z.to_nat c))
      else None) steps in
    score + _evaluate_line line player) directions 0.

(** The cells in the order of [for r in range(6): for c in range(7)]. *)
Definition cells : list (nat * nat) :=
  flat_map (λ r, map (λ c, (r, c)) (range 7)) (range 6).

(** The loop [for move in range(7)] of [_detect_forks]: the number of
    columns of [simulated_board] in which a further piece of [player]
    wins. *)
Definition winning_moves (simulated_board : Board) (player : Z) : option Z :=
  for_each (λ winning_moves move,
    if get simulated_board 0 move =? 0 then
      do (test_board, test_row, test_col) <-
        _apply_move simulated_board move player;
      if _check_win test_board player (Z.of_nat test_row) (Z.of_nat test_col)
      then Some (winning_moves + 1)
      else Some winning_moves
    else Some winning_moves) (range 7) 0.

Definition _detect_forks (board : Board) (player : Z) : option Z :=
  for_each (λ fork_score '(r, c),
    if get board r c =? 0 then
      do (simulated_board, row, col) <- _apply_move board c player;
      do winning_moves <- winning_moves simulated_board player;
      if 1 <? winning_moves then Some (fork_score + 50) else Some fork_score
    else Some fork_score) cells 0.

(** [center_array.count(1)] *)
Definition center_count (board : Board) : Z :=
  Z.of_nat (line_count 1 (map (λ i, Some (get board i 3)) (range 6))).

(** The double loop of [_evaluate_board] over the occupied cells. *)
Definition pattern_score (board : Board) (score : Z) : Z :=
  fold_left (λ score '(r, c),
    if get board r c =? 0 then score
    else score + _score_position board (Z.of_nat r) (Z.of_nat c) 1
               - _score_position board (Z.of_nat r) (Z.of_nat c) (-1))
    cells score.

Definition _evaluate_board (board : Board) : option Z :=
  let score := 0 in
  let score := score + center_count board * 4 in
  let score := pattern_score board score in
  do forks <- _detect_forks board 1;
  let score := score + forks in
  do forks <- _detect_forks board (-1);
  let score := score - forks in
  Some score.

Definition _simple_evaluate_board (board : Board) : option Z :=
  for_each (λ score move,
    if get board 0 move =? 0 then
      do (new_board, row, col) <- _apply_move board move 1;
      if _check_win new_board 1 (Z.of_nat row) (Z.of_nat col)
      then Some (score + 100)
      else if _check_win new_board (-1) (Z.of_nat row) (Z.of_nat col)
      then Some (score - 100)
      else Some score
    else Some score) (range 7) 0.

(** ** The search *)

Record MinimaxPlayer : Type := {
  name : string;
  max_depth : nat;
  heuristic : bool
}.

(** [[c for c in range(7) if board[0, c] == 0]] *)
Definition valid_moves (board : Board) : list nat :=
  List.filter (λ c, get board 0 c =? 0) (range 7).

(** What [_minimax] returns: the score and the move, which is [None] at a
    cutoff on a full board. *)
Definition Outcome : Type := Score * option nat.

(** The code after either loop: [if best_move is None: best_move =
    valid_moves[0]] and the [return]. *)
Definition finish (valid_moves : list nat) (eval : Score)
  (best_move : option nat) : option Outcome :=
  match best_move with
  | Some move => Some (eval, Some move)
  | None => do move <- head valid_moves; Some (eval, Some move)
  end.

(** The loop of the maximizing branch, from the state [max_eval],
    [best_move], [alpha] over the moves still to come; [rec] is the call
    [self._minimax(new_board, depth - 1, False, alpha, beta)]. *)
Fixpoint max_loop (rec : Board → Score → Score → option Outcome)
  (board : Board) (valid_moves moves : list nat)
  (max_eval : Score) (best_move : option nat) (alpha beta : Score)
  : option Outcome :=
  match moves with
  | [] => finish valid_moves max_eval best_move
  | move :: rest =>
      do (new_board, row, col) <- _apply_move board move 1;
      if _check_win new_board 1 (Z.of_nat row) (Z.of_nat col)
      then Some (PosInf, Some move)
      else
        do (eval_score, _) <- rec new_board alpha beta;
        let '(max_eval, best_move) :=
          if Score.gt eval_score max_eval then (eval_score, Some move)
          else (max_eval, best_move) in
        let alpha := Score.max alpha eval_score in
        if Score.le beta alpha
        then finish valid_moves max_eval best_move
        else max_loop rec board valid_moves rest max_eval best_move alpha beta
  end.

(** The loop of the minimizing branch. *)
Fixpoint min_loop (rec : Board → Score → Score → option Outcome)
  (board : Board) (valid_moves moves : list nat)
  (min_eval : Score) (best_move : option nat) (alpha beta : Score)
  : option Outcome :=
  match moves with
  | [] => finish valid_moves min_eval best_move
  | move :: rest =>
      do (new_board, row, col) <- _apply_move board move (-1);
      if _check_win new_board (-1) (Z.of_nat row) (Z.of_nat col)
      then Some (NegInf, Some move)
      else
        do (eval_score, _) <- rec new_board alpha beta;
        let '(min_eval, best_move) :=
          if Score.lt eval_score min_eval then (eval_score, Some move)
          else (min_eval, best_move) in
        let beta := Score.min beta eval_score in
        if Score.le beta alpha
        then finish valid_moves min_eval best_move
        else min_loop rec board valid_moves rest min_eval best_move alpha beta
  end.

(** The static evaluation the player is configured with. *)
Definition evaluate (self : MinimaxPlayer) (board : Board) : option Score :=
  if heuristic self
  then do score <- _evaluate_board board; Some (Fin score)
  else do score <- _simple_evaluate_board board; Some (Fin score).

Fixpoint _minimax (self : MinimaxPlayer) (board : Board) (depth : nat)
  (maximizing_player : bool) (alpha beta : Score) {struct depth}
  : option Outcome :=
  let valid_moves := valid_moves board in
  let cutoff :=
    do score <- evaluate self board; Some (score, head valid_moves) in
  match depth with
  | O => cutoff
  | S depth' =>
      match valid_moves with
      | [] => cutoff
      | _ :: _ =>
          if maximizing_player
          then max_loop (λ new_board alpha beta,
                           _minimax self new_board depth' false alpha beta)
                 board valid_moves valid_moves NegInf None alpha beta
          else min_loop (λ new_board alpha beta,
                           _minimax self new_board depth' true alpha beta)
                 board valid_moves valid_moves PosInf None alpha beta
      end
  end.

Definition _minimax_decision (self : MinimaxPlayer) (observation : Board)
  : option (option nat) :=
  do (_, best_move) <-
    _minimax self observation (max_depth self) true NegInf PosInf;
  Some best_move.

(** An observation is one board or a Python list of boards. *)
Inductive Observation : Type :=
| Single (obs : Board)
| Batch (obs : list Board).

Inductive Action : Type :=
| Move (best_move : option nat)
| Moves (best_moves : list (option nat)).

(** [[f(o) for o in obs]] for an [f] that may raise. *)
Fixpoint comprehension {A B : Type} (f : A → option B) (l : list A)
  : option (list B) :=
  match l with
  | [] => Some []
  | x :: rest =>
      do y <- f x; do ys <- comprehension f rest; Some (y :: ys)
  end.

Definition play (self : MinimaxPlayer) (obs : Observation) : option Action :=
  match obs with
  | Batch obs =>
      do moves <- comprehension (_minimax_decision self) obs;
      Some (Moves moves)
  | Single obs => do move <- _minimax_decision self obs; Some (Move move)
  end.

Definition getElo (self : MinimaxPlayer) : Z := 2000.

Definition isDeterministic (self : MinimaxPlayer) : bool := true.

(** ** Notions used by the statements *)

(** Dropping a piece of [player] in column [move] completes four in a row
    for [player]. *)
Definition immediate_win (board : Board) (player : Z) (move : nat) : bool :=
  match _apply_move board move player with
  | Some (new_board, row, col) =>
      _check_win new_board player (Z.of_nat row) (Z.of_nat col)
  | None => false
  end.


(** The column has no empty cell. *)
Definition column_full (board : Board) (c : nat) : Prop :=
  ∀ r, (r < 6)%nat → get board r c ≠ 0.

(** The legal columns of [board] in which a further piece of [player]
    completes four in a row. *)
Definition winning_replies (board : Board) (player : Z) : list nat :=
  List.filter (immediate_win board player) (valid_moves board).

(** A fork: more than one legal column wins for [player]. *)
Definition is_fork (board : Board) (player : Z) : bool :=
  (1 <? length (winning_replies board player))%nat.

(** After a piece of [player] is dropped in column [c], the position is a
    fork for [player]. *)
Definition drop_fork (board : Board) (player : Z) (c : nat) : bool :=
  match _apply_move board c player with
  | Some (simulated_board, _, _) => is_fork simulated_board player
  | None => false
  end.

(** The empty cells whose column is a [drop_fork]. *)
Definition fork_cells (board : Board) (player : Z) : list (nat * nat) :=
  List.filter (λ '(r, c), (get board r c =? 0) && drop_fork board player c)
    cells.

(** The fork bonus as the specification words it: the empty cells such that,
    with a piece of [player] put on that very cell, the position is a fork
    for [player]. *)
Definition spec_fork_cells (board : Board) (player : Z) : list (nat * nat) :=
  List.filter (λ '(r, c),
    (get board r c =? 0) && is_fork (set_cell board r c player) player)
    cells.

Definition spec_detect_forks (board : Board) (player : Z) : Z :=
  50 * Z.of_nat (length (spec_fork_cells board player)).

(** The legal columns in which a piece of self wins at once. *)
Definition winning_columns (board : Board) : list nat :=
  List.filter (immediate_win board 1) (valid_moves board).

(** ** The unpruned reference search

    Plain minimax over the tree that [_minimax] explores: the same moves in
    the same order, the same evaluation at the cutoff, a move that completes
    four in a row worth [PosInf] to the maximizing side and [NegInf] to the
    minimizing side; every move of a node is examined (no [return] at a
    winning move, no [break] on [beta <= alpha]) and the best one is kept
    by the same strict comparison. *)

Fixpoint full_max_loop (rec : Board → option Outcome)
  (board : Board) (valid_moves moves : list nat)
  (max_eval : Score) (best_move : option nat) : option Outcome :=
  match moves with
  | [] => finish valid_moves max_eval best_move
  | move :: rest =>
      do (new_board, row, col) <- _apply_move board move 1;
      do eval_score <-
        (if _check_win new_board 1 (Z.of_nat row) (Z.of_nat col)
         then Some PosInf
         else do (eval_score, _) <- rec new_board; Some eval_score);
      let '(max_eval, best_move) :=
        if Score.gt eval_score max_eval then (eval_score, Some move)
        else (max_eval, best_move) in
      full_max_loop rec board valid_moves rest max_eval best_move
  end.

Fixpoint full_min_loop (rec : Board → option Outcome)
  (board : Board) (valid_moves moves : list nat)
  (min_eval : Score) (best_move : option nat) : option Outcome :=
  match moves with
  | [] => finish valid_moves min_eval best_move
  | move :: rest =>
      do (new_board, row, col) <- _apply_move board move (-1);
      do eval_score <-
        (if _check_win new_board (-1) (Z.of_nat row) (Z.of_nat col)
         then Some NegInf
         else do (eval_score, _) <- rec new_board; Some eval_score);
      let '(min_eval, best_move) :=
        if Score.lt eval_score min_eval then (eval_score, Some move)
        else (min_eval, best_move) in
      full_min_loop rec board valid_moves rest min_eval best_move
  end.

Fixpoint full_minimax (self : MinimaxPlayer) (board : Board) (depth : nat)
  (maximizing_player : bool) {struct depth} : option Outcome :=
  let valid_moves := valid_moves board in
  let cutoff :=
    do score <- evaluate self board; Some (score, head valid_moves) in
  match depth with
  | O => cutoff
  | S depth' =>
      match valid_moves with
      | [] => cutoff
      | _ :: _ =>
          if maximizing_player
          then full_max_loop (λ new_board,
                                full_minimax self new_board depth' false)
                 board valid_moves valid_moves NegInf None
          else full_min_loop (λ new_board,
                                full_minimax self new_board depth' true)
                 board valid_moves valid_moves PosInf None
      end
  end.

(** ** Notions used by the statements about the search *)

(** The piece of the side to move and the score of its win. *)
Definition side (maximizing : bool) : Z := if maximizing then 1 else -1.

Definition win_score (maximizing : bool) : Score :=
  if maximizing then PosInf else NegInf.

(** The value of a move to the side to move, as the unpruned search sees
    it: the score of a win if the move completes four in a row, else the
    score [frec] gives the position reached. *)
Definition move_value (frec : Board → option Outcome) (board : Board)
  (maximizing : bool) (move : nat) : option Score :=
  do (new_board, row, col) <- _apply_move board move (side maximizing);
  if _check_win new_board (side maximizing) (Z.of_nat row) (Z.of_nat col)
  then Some (win_score maximizing)
  else do (eval_score, _) <- frec new_board; Some eval_score.

(** [x] is no better than [y] for the side to move, and strictly worse. *)
Definition no_better (maximizing : bool) (x y : Score) : Prop :=
  if maximizing then x ⪯ y else y ⪯ x.

Definition worse (maximizing : bool) (x y : Score) : Prop :=
  if maximizing then x ≺ y else y ≺ x.

(** What a fail-soft alpha-beta result [r] says about the true value [t]:
    below [beta] it is an upper bound, above [alpha] a lower bound. *)
Definition bound (alpha beta r t : Score) : Prop :=
  (r ≺ beta → t ⪯ r) ∧ (alpha ≺ r → r ⪯ t).

(** The pruned recursive call against the unpruned one. *)
Definition refines (rec : Board → Score → Score → option Outcome)
  (frec : Board → option Outcome) : Prop :=
  ∀ new_board alpha beta, alpha ≺ beta →
    ∃ r m t m', rec new_board alpha beta = Some (r, m)
      ∧ frec new_board = Some (t, m') ∧ bound alpha beta r t.

(** ** Example positions *)

Definition empty_board : Board := replicate 6 (replicate 7 0).

(** Self holds three stacked pieces in columns 5 and 6. *)
Definition two_threats : Board :=
  [ [ 0;  0; 0; 0;  0; 0; 0];
    [ 0;  0; 0; 0;  0; 0; 0];
    [ 0;  0; 0; 0;  0; 0; 0];
    [ 0;  0; 0; 0;  0; 1; 1];
    [-1; -1; 0; 0; -1; 1; 1];
    [-1; -1; 0; 0; -1; 1; 1] ].

(** Self holds two adjacent pieces on the bottom row, open on both sides. *)
Definition open_pair : Board :=
  [ [0; 0;  0;  0; 0; 0; 0];
    [0; 0;  0;  0; 0; 0; 0];
    [0; 0;  0;  0; 0; 0; 0];
    [0; 0;  0;  0; 0; 0; 0];
    [0; 0; -1; -1; 0; 0; 0];
    [0; 0;  1;  1; 0; 0; 0] ].

(** Column 0 holds a piece on its top cell with nothing beneath it. *)
Definition floating_piece : Board :=
  [ [1; 0; 0; 0; 0; 0; 0];
    [0; 0; 0; 0; 0; 0; 0];
    [0; 0; 0; 0; 0; 0; 0];
    [0; 0; 0; 0; 0; 0; 0];
    [0; 0; 0; 0; 0; 0; 0];
    [0; 0; 0; 0; 0; 0; 0] ].

(** Self holds columns 0 to 2 of the bottom row; column 3 is open. *)
Definition three_in_row : Board :=
  [ [ 0;  0; 0; 0; 0; 0; 0];
    [ 0;  0; 0; 0; 0; 0; 0];
    [ 0;  0; 0; 0; 0; 0; 0];
    [ 0;  0; 0; 0; 0; 0; 0];
    [-1; -1; 0; 0; 0; 0; 0];
    [ 1;  1; 1; 0; 0; 0; -1] ].

(** Column 0 is filled to the top. *)
Definition full_column : Board :=
  [ [-1; 0; 0; 0; 0; 0; 0];
    [ 1; 0; 0; 0; 0; 0; 0];
    [-1; 0; 0; 0; 0; 0; 0];
    [ 1; 0; 0; 0; 0; 0; 0];
    [-1; 0; 0; 0; 0; 0; 0];
    [ 1; 0; 0; 0; 0; 0; 0] ].

Definition player_of (depth : nat) (heuristic : bool) : MinimaxPlayer :=
  {| name := "MinimaxPlayer"; max_depth := depth; heuristic := heuristic |}.

(** ** Notions used by the further properties *)

(** Four cells in a row on a line through the anchor, all of them on the
    board and holding [player]: the line goes in one of the four
    directions, and the four cells are [k .. k + 3] steps from the anchor,
    with the anchor among them. *)
Definition four_through (board : Board) (player : Z) (row col : Z) : Prop :=
  ∃ dr dc k, In (dr, dc) directions ∧ -3 <= k <= 0
    ∧ ∀ j, 0 <= j <= 3 →
        owned board player (row + (k + j) * dr) (col + (k + j) * dc) = true.

(** Self has four in a row on the bottom row. *)
Definition won_row : Board :=
  [ [ 0;  0;  0; 0; 0; 0; 0];
    [ 0;  0;  0; 0; 0; 0; 0];
    [ 0;  0;  0; 0; 0; 0; 0];
    [ 0;  0;  0; 0; 0; 0; 0];
    [-1; -1; -1; 0; 0; 0; 0];
    [ 1;  1;  1; 1; 0; 0; 0] ].

(** The side [winner] ([true] for self, [false] for the opponent) can
    complete four in a row within [depth] plies from [board] with
    [maximizing] to move, whatever the other side plays: on its own turn
    some legal move wins at once or keeps the win forced, on the other
    side's turn there is a legal move and every legal move fails to win
    for the mover and keeps the win forced. *)
Fixpoint forced_win (winner : bool) (depth : nat) (board : Board)
  (maximizing : bool) : Prop :=
  match depth with
  | O => False
  | S depth' =>
      if eqb maximizing winner
      then ∃ move, In move (valid_moves board)
             ∧ (immediate_win board (side maximizing) move = true
                ∨ immediate_win board (side maximizing) move = false
                  ∧ ∃ new_board row col,
                      _apply_move board move (side maximizing)
                        = Some (new_board, row, col)
                      ∧ forced_win winner depth' new_board (negb maximizing))
      else valid_moves board ≠ []
           ∧ ∀ move, In move (valid_moves board) →
               immediate_win board (side maximizing) move = false
               ∧ ∃ new_board row col,
                   _apply_move board move (side maximizing)
                     = Some (new_board, row, col)
                   ∧ forced_win winner depth' new_board (negb maximizing)
  end.

(** What one window of four adds to the score in [_evaluate_line]. *)
Definition window_score (player : Z) (window : list (option Z)) : Z :=
  if (line_count player window =? 4)%nat then 1000
  else if (line_count player window =? 3)%nat
          && (line_count 0 window =? 1)%nat then 15
  else if (line_count player window =? 2)%nat
          && (line_count 0 window =? 2)%nat then 7
  else if (line_count (- player) window =? 3)%nat
          && (line_count 0 window =? 1)%nat then -20
  else 0.

(** The line of seven places that [_score_position] reads through
    [(row, col)] in the direction [(dr, dc)]. *)
Definition line_of (board : Board) (row col dr dc : Z) : list (option Z) :=
  map (λ step,
    let r := row + step * dr in
    let c := col + step * dc in
    if (0 <=? r) && (r <? 6) && (0 <=? c) && (c <? 7)
    then Some (get board (Z.to_nat r) (Z.to_nat c))
    else None) steps.

(** The opponent holds columns 0 to 2 of the bottom row; column 3 is
    open. *)
Definition must_block : Board :=
  [ [ 0;  0;  0; 0; 0; 0; 0];
    [ 0;  0;  0; 0; 0; 0; 0];
    [ 0;  0;  0; 0; 0; 0; 0];
    [ 0;  0;  0; 0; 0; 0; 0];
    [ 1;  1;  0; 0; 0; 0; 0];
    [-1; -1; -1; 0; 0; 0; 1] ].

(** The number of empty cells of a column. *)
Definition empty_in_column (board : Board) (c : nat) : nat :=
  length (List.filter (λ r, get board r c =? 0) (range 6)).

(** The sum of [f] over a list of indices. *)
Definition sum_over (l : list nat) (f : nat → Z) : Z :=
  fold_right (λ x s, f x + s) 0 l.

(** The board with the colours exchanged: every cell value negated. *)
Definition swap_colours (board : Board) : Board :=
  map (map Z.opp) board.

(** Somewhere on the board four cells in a row, in one of the four
    directions, all hold [player]. *)
Definition has_four (board : Board) (player : Z) : Prop :=
  ∃ r c dr dc, In (dr, dc) directions
    ∧ ∀ j, 0 <= j <= 3 →
        owned board player (r + j * dr) (c + j * dc) = true.

(** * Properties *)

(** ** Reading and writing cells *)

Section BoardFacts.

Lemma wfb_wf board : wfb board = true ↔ wf board.
Proof.
  unfold wfb, wf. rewrite andb_true_iff, Nat.eqb_eq, forallb_forall.
  rewrite List.Forall_forall. split; intros [Hl Hr]; split; auto.
  - intros row Hin. apply Nat.eqb_eq; auto.
  - intros row Hin. apply Nat.eqb_eq; auto.
Qed.

Lemma wf_row board r :
  wf board → (r < 6)%nat → ∃ row, board !! r = Some row ∧ length row = 7%nat.
Proof.
  intros [Hlen Hrows] Hr.
  destruct (lookup_lt_is_Some_2 board r) as [row Hrow]; [lia|].
  exists row. split; [done|].
  eapply Forall_lookup_1 in Hrows; eauto.
Qed.

Lemma get_set_cell_eq board r c v :
  wf board → (r < 6)%nat → (c < 7)%nat → get (set_cell board r c v) r c = v.
Proof.
  intros Hwf Hr Hc. destruct (wf_row board r Hwf Hr) as (row & Hrow & Hlen).
  unfold get, set_cell. rewrite list_lookup_alter_eq, Hrow. simpl.
  rewrite list_lookup_insert_eq by lia. done.
Qed.

Lemma get_set_cell_ne board r c v r' c' :
  (r', c') ≠ (r, c) → get (set_cell board r c v) r' c' = get board r' c'.
Proof.
  intros Hne. unfold get, set_cell.
  destruct (decide (r = r')) as [->|Hr].
  - rewrite list_lookup_alter_eq. destruct (board !! r') as [row|]; simpl; [|done].
    rewrite list_lookup_insert_ne by congruence. done.
  - rewrite list_lookup_alter_ne by done. done.
Qed.

Lemma wf_set_cell board r c v : wf board → wf (set_cell board r c v).
Proof.
  intros [Hlen Hrows]. split.
  - unfold set_cell. by rewrite length_alter.
  - unfold set_cell. apply Forall_alter; [done|].
    intros row _ Hrow. by rewrite length_insert.
Qed.

(** What the downward scan of [_apply_move] finds. *)
Lemma apply_move_Some board move player new_board i c :
  _apply_move board move player = Some (new_board, i, c) →
  c = move ∧ (i < 6)%nat ∧ get board i move = 0
  ∧ new_board = set_cell board i move player
  ∧ ∀ j, (i < j < 6)%nat → get board j move ≠ 0.
Proof.
  unfold _apply_move, drop_piece.
  destruct (get board 5 move =? 0) eqn:E5;
    [|destruct (get board 4 move =? 0) eqn:E4;
      [|destruct (get board 3 move =? 0) eqn:E3;
        [|destruct (get board 2 move =? 0) eqn:E2;
          [|destruct (get board 1 move =? 0) eqn:E1;
            [|destruct (get board 0 move =? 0) eqn:E0; [|done]]]]]];
    intros [= <- <- <-];
    rewrite ?Z.eqb_eq, ?Z.eqb_neq in *;
    (split; [done|split; [lia|split; [done|split; [done|]]]]);
    intros j Hj;
    assert (j = 5 ∨ j = 4 ∨ j = 3 ∨ j = 2 ∨ j = 1)%nat as Hcase by lia;
    destruct Hcase as [->|[->|[->|[->| ->]]]]; solve [done | lia].
Qed.

Lemma apply_move_None board move player :
  _apply_move board move player = None ↔ column_full board move.
Proof.
  unfold _apply_move, drop_piece, column_full. split.
  - destruct (get board 5 move =? 0) eqn:E5; [done|].
    destruct (get board 4 move =? 0) eqn:E4; [done|].
    destruct (get board 3 move =? 0) eqn:E3; [done|].
    destruct (get board 2 move =? 0) eqn:E2; [done|].
    destruct (get board 1 move =? 0) eqn:E1; [done|].
    destruct (get board 0 move =? 0) eqn:E0; [done|].
    rewrite Z.eqb_neq in *. intros _ r Hr.
    assert (r = 5 ∨ r = 4 ∨ r = 3 ∨ r = 2 ∨ r = 1 ∨ r = 0)%nat as Hcase by lia.
    destruct Hcase as [->|[->|[->|[->|[->| ->]]]]]; done.
  - intros Hfull.
    rewrite !(proj2 (Z.eqb_neq _ _)) by (apply Hfull; lia). done.
Qed.

(** A column with an empty cell accepts a piece. *)
Lemma apply_move_empty board move player r :
  (r < 6)%nat → get board r move = 0 →
  ∃ new_board i, _apply_move board move player = Some (new_board, i, move).
Proof.
  intros Hr Hget.
  destruct (_apply_move board move player) as [[[new_board i] c]|] eqn:Happly.
  - apply apply_move_Some in Happly as (-> & _). eauto.
  - apply apply_move_None in Happly. by specialize (Happly r Hr).
Qed.

Lemma elem_of_valid_moves board c :
  In c (valid_moves board) ↔ (c < 7)%nat ∧ get board 0 c = 0.
Proof.
  unfold valid_moves, range. rewrite filter_In, in_seq, Z.eqb_eq. lia.
Qed.

Lemma apply_move_valid board move player :
  In move (valid_moves board) →
  ∃ new_board i, _apply_move board move player = Some (new_board, i, move).
Proof.
  intros [_ Hget]%elem_of_valid_moves.
  apply (apply_move_empty board move player 0%nat); [lia|done].
Qed.

Lemma gravityb_gravity board : gravityb board = true ↔ gravity board.
Proof.
  unfold gravityb, gravity, range. rewrite forallb_forall. split.
  - intros H r c Hr Hc Hne.
    specialize (H c). rewrite in_seq, forallb_forall in H.
    specialize (H ltac:(lia) r). rewrite in_seq in H.
    specialize (H ltac:(lia)).
    apply Z.eqb_neq in Hne. rewrite Hne in H. simpl in H.
    apply negb_true_iff, Z.eqb_neq in H. done.
  - intros H c Hc%in_seq. apply forallb_forall. intros r Hr%in_seq.
    destruct (get board r c =? 0) eqn:E; [done|]. simpl.
    apply negb_true_iff, Z.eqb_neq, H; [lia..|]. by apply Z.eqb_neq.
Qed.

End BoardFacts.

(** ** Move application *)

Section ApplyMove.

Lemma store_drop_piece (h : Store.Heap) (new_board : Store.Ref)
  (b : Board) rows move player :
  h !! new_board = Some b →
  Store.drop_piece h new_board rows move player =
    match drop_piece b rows move player with
    | Some (_, i, c) =>
        Some (Store.write h new_board i move player, (new_board, i, c))
    | None => None
    end.
Proof.
  intros Hb. induction rows as [|i rest IH]; simpl; [done|].
  unfold Store.read. rewrite Hb.
  destruct (get b i move =? 0); [done|apply IH].
Qed.

Lemma gravity_apply_move board move player new_board i :
  wf board → gravity board → (move < 7)%nat → player ≠ 0 →
  _apply_move board move player = Some (new_board, i, move) →
  gravity new_board.
Proof.
  intros Hwf Hgrav Hmove Hplayer (_ & Hi & Hempty & -> & Hbelow)%apply_move_Some.
  intros r c Hr Hc.
  destruct (decide ((S r, c) = (i, move))) as [[= <- ->]|Hne1].
  { intros _. rewrite get_set_cell_eq by (done || lia). done. }
  rewrite (get_set_cell_ne _ _ _ _ (S r)) by done.
  destruct (decide ((r, c) = (i, move))) as [[= -> ->]|Hne2].
  { intros _. apply Hbelow. lia. }
  rewrite get_set_cell_ne by done. by apply Hgrav.
Qed.

Lemma gravity_top_full board c :
  gravity board → (c < 7)%nat → get board 0 c ≠ 0 → column_full board c.
Proof.
  intros Hgrav Hc Htop r Hr. induction r as [|r IH]; [done|].
  apply Hgrav; [lia|done|]. apply IH. lia.
Qed.

End ApplyMove.

(** C4. On a board that satisfies the gravity invariant, dropping a piece
    of a player in a column that still has an empty cell leaves the array
    that was passed in as it was (the piece is written to a fresh copy),
    and the array returned satisfies the gravity invariant and differs from
    the input in exactly one cell, the landing cell of that column, which
    went from empty to the player's value. *)
Theorem apply_move_preserves_board
  (h : Store.Heap) (board : Store.Ref) (b : Board)
  (column : nat) (player : Z) (r : nat) :
  h !! board = Some b → wf b → gravity b →
  (column < 7)%nat → player ≠ 0 →
  (r < 6)%nat → get b r column = 0 →
  ∃ h' new_board landed b',
    Store._apply_move h board column player
      = Some (h', (new_board, landed, column))
    ∧ _apply_move b column player = Some (b', landed, column)
    ∧ h' !! board = Some b
    ∧ (∀ other, other ≠ new_board → h' !! other = h !! other)
    ∧ h' !! new_board = Some b'
    ∧ wf b' ∧ gravity b'
    ∧ get b landed column = 0
    ∧ get b' landed column = player
    ∧ get b' landed column ≠ get b landed column
    ∧ ∀ r' c', (r', c') ≠ (landed, column) → get b' r' c' = get b r' c'.
Proof.
  intros Hb Hwf Hgrav Hcol Hplayer Hr Hempty.
  destruct (apply_move_empty b column player r Hr Hempty)
    as (b' & landed & Happly).
  pose proof (apply_move_Some _ _ _ _ _ _ Happly)
    as (_ & Hlanded & Hzero & Hb' & _).
  assert (length h ≠ board) as Hfresh.
  { apply lookup_lt_Some in Hb. lia. }
  exists (Store.write (h ++ [b]) (length h) landed column player),
    (length h), landed, b'.
  split.
  { unfold Store._apply_move, Store.copy. rewrite Hb.
    rewrite (store_drop_piece _ _ b) by apply list_lookup_middle, eq_refl.
    fold (_apply_move b column player). by rewrite Happly. }
  split; [done|]. split.
  { unfold Store.write. rewrite list_lookup_alter_ne by done.
    rewrite lookup_app_l by (by eapply lookup_lt_Some). done. }
  split.
  { intros other Hother. unfold Store.write.
    rewrite list_lookup_alter_ne by done.
    destruct (decide (other < length h)%nat).
    - by rewrite lookup_app_l.
    - rewrite !lookup_ge_None_2; [done|lia|]. rewrite length_app. simpl. lia. }
  split.
  { unfold Store.write. rewrite list_lookup_alter_eq.
    rewrite list_lookup_middle by done. simpl. by rewrite Hb'. }
  split; [subst b'; by apply wf_set_cell|].
  split; [by eapply gravity_apply_move|].
  split; [done|].
  assert (get b' landed column = player) as Hput.
  { subst b'. by apply get_set_cell_eq. }
  split; [done|]. split; [congruence|].
  intros r' c' Hne. subst b'. by apply get_set_cell_ne.
Qed.

Lemma apply_move_preserves_board_witness :
  ∃ h' new_board landed b',
    Store._apply_move [open_pair] 0%nat 4%nat 1
      = Some (h', (new_board, landed, 4%nat))
    ∧ _apply_move open_pair 4%nat 1 = Some (b', landed, 4%nat)
    ∧ h' !! 0%nat = Some open_pair
    ∧ (∀ other, other ≠ new_board → h' !! other = [open_pair] !! other)
    ∧ h' !! new_board = Some b'
    ∧ wf b' ∧ gravity b'
    ∧ get open_pair landed 4%nat = 0
    ∧ get b' landed 4%nat = 1
    ∧ get b' landed 4%nat ≠ get open_pair landed 4%nat
    ∧ ∀ r' c', (r', c') ≠ (landed, 4%nat) → get b' r' c' = get open_pair r' c'.
Proof.
  apply (apply_move_preserves_board [open_pair] 0%nat open_pair 4%nat 1 0%nat).
  - reflexivity.
  - apply wfb_wf. reflexivity.
  - apply gravityb_gravity. reflexivity.
  - lia.
  - lia.
  - lia.
  - reflexivity.
Defined.

(** Without the gravity invariant the top cell does not decide: a column
    whose top cell is occupied above an empty cell still accepts a piece. *)
Lemma apply_move_without_gravity :
  gravityb floating_piece = false
  ∧ get floating_piece 0 0 ≠ 0
  ∧ ∃ new_board, _apply_move floating_piece 0 1 = Some (new_board, 5%nat, 0%nat).
Proof.
  split; [reflexivity|]. split; [vm_compute; discriminate|].
  eexists. vm_compute. reflexivity.
Qed.

(** C5. On a board of the game (6x7, satisfying the gravity invariant) and
    for a column 0..6: [_apply_move] on a column whose top cell is occupied
    raises (no board is returned, no piece is placed) and that column is not
    among the legal moves of the search; equivalently, [_apply_move] raises
    exactly when the column has no empty cell, which is exactly when its top
    cell is occupied, and it succeeds exactly on the legal moves. *)
Theorem apply_move_full_column (board : Board) (c : nat) (player : Z) :
  wf board → gravity board → (c < 7)%nat →
  (get board 0 c ≠ 0 →
   _apply_move board c player = None ∧ ¬ In c (valid_moves board))
  ∧ (_apply_move board c player = None ↔ column_full board c)
  ∧ (column_full board c ↔ get board 0 c ≠ 0)
  ∧ (In c (valid_moves board)
     ↔ ∃ new_board row, _apply_move board c player = Some (new_board, row, c)).
Proof.
  intros Hwf Hgrav Hc.
  assert (column_full board c ↔ get board 0 c ≠ 0) as Hfull.
  { split; [intros Hall; apply Hall; lia|by apply gravity_top_full]. }
  split; [|split; [|split]].
  - intros Htop. split.
    + apply apply_move_None. by apply Hfull.
    + intros [_ Hzero]%elem_of_valid_moves. done.
  - apply apply_move_None.
  - exact Hfull.
  - split.
    + apply apply_move_valid.
    + intros (nb & row & Happly). apply elem_of_valid_moves. split; [done|].
      destruct (decide (get board 0 c = 0)) as [|Htop]; [done|].
      apply Hfull in Htop.
      apply (proj2 (apply_move_None board c player)) in Htop.
      rewrite Htop in Happly. done.
Qed.

Lemma apply_move_full_column_witness :
  (get full_column 0 0 ≠ 0 →
   _apply_move full_column 0 1 = None ∧ ¬ In 0%nat (valid_moves full_column))
  ∧ (_apply_move full_column 0 1 = None ↔ column_full full_column 0)
  ∧ (column_full full_column 0 ↔ get full_column 0 0 ≠ 0)
  ∧ (In 0%nat (valid_moves full_column)
     ↔ ∃ new_board row,
         _apply_move full_column 0 1 = Some (new_board, row, 0%nat)).
Proof.
  apply (apply_move_full_column full_column 0%nat 1).
  - apply wfb_wf. reflexivity.
  - apply gravityb_gravity. reflexivity.
  - lia.
Defined.

(** ** Win detection *)

Section CheckWin.

Lemma scan_line_ext (f g : Z → bool) (l : list Z) (count : nat) :
  (∀ step, In step l → f step = g step) →
  scan_line f l count = scan_line g l count.
Proof.
  revert count. induction l as [|step rest IH]; intros count Hfg; [done|].
  simpl. rewrite (Hfg step) by (by left).
  rewrite !IH by (intros; apply Hfg; by right). done.
Qed.

(** A run of four in a line of seven is found from either end. *)
Lemma scan_line_opp (f : Z → bool) :
  scan_line (λ step, f (- step)) steps 0 = scan_line f steps 0.
Proof.
  cbv [steps scan_line Z.opp Nat.eqb].
  destruct (f (-3)), (f (-2)), (f (-1)), (f 0), (f 1), (f 2), (f 3);
    reflexivity.
Qed.

(** No run of four fits on one side of the middle cell. *)
Lemma scan_line_centre (f : Z → bool) :
  f 0 = false → scan_line f steps 0 = false.
Proof.
  intros H0. cbv [steps scan_line Nat.eqb]. rewrite H0.
  destruct (f (-3)), (f (-2)), (f (-1)), (f 1), (f 2), (f 3); reflexivity.
Qed.

Lemma check_win_anchor board player row col :
  owned board player row col = false →
  _check_win board player row col = false.
Proof.
  intros Hanchor. unfold _check_win, directions. cbn [existsb].
  rewrite !scan_line_centre; [done|..];
    rewrite !Z.mul_0_l, !Z.add_0_r; exact Hanchor.
Qed.

Lemma get_mirror board r c :
  wf board → (r < 6)%nat → (c < 7)%nat →
  get (mirror board) r c = get board r (6 - c)%nat.
Proof.
  intros Hwf Hr Hc. destruct (wf_row board r Hwf Hr) as (row & Hrow & Hlen).
  unfold get, mirror. rewrite list_lookup_fmap, Hrow. simpl.
  rewrite reverse_lookup by lia. rewrite Hlen.
  replace (7 - S c)%nat with (6 - c)%nat by lia. done.
Qed.

Lemma owned_mirror board player r c :
  wf board → owned (mirror board) player r (6 - c) = owned board player r c.
Proof.
  intros Hwf. unfold owned.
  destruct (0 <=? r) eqn:E1; [|done]. destruct (r <? 6) eqn:E2; [|simpl; done].
  simpl.
  destruct (0 <=? c) eqn:E3, (c <? 7) eqn:E4;
    destruct (0 <=? 6 - c) eqn:E5, (6 - c <? 7) eqn:E6; simpl; try done; try lia.
  rewrite get_mirror by (done || lia).
  replace (6 - Z.to_nat (6 - c))%nat with (Z.to_nat c) by lia. done.
Qed.

End CheckWin.

(** C8. Win detection is invariant under horizontal reflection: on a 6x7
    board, [_check_win] at the anchor [(row, col)] gives the same answer as
    on the mirrored board at the anchor [(row, 6 - col)], for every player
    and every anchor. *)
Theorem check_win_mirror (board : Board) (player : Z) (row col : Z) :
  wf board →
  _check_win board player row col
  = _check_win (mirror board) player row (6 - col).
Proof.
  intros Hwf. unfold _check_win, directions. cbn [existsb].
  rewrite !orb_false_r.
  set (f dr dc := λ step : Z,
         owned board player (row + step * dr) (col + step * dc)).
  assert (∀ dr dc, scan_line (λ step,
            owned (mirror board) player (row + step * dr)
              (6 - col + step * dc)) steps 0
          = scan_line (f dr (- dc)) steps 0) as Hm.
  { intros dr dc. apply scan_line_ext. intros step _. unfold f.
    replace (6 - col + step * dc) with (6 - (col + step * - dc)) by lia.
    by apply owned_mirror. }
  rewrite !Hm. change (Z.opp 0) with 0. change (Z.opp 1) with (-1).
  change (Z.opp (-1)) with 1. fold (f 1 0) (f 0 1) (f 1 1) (f 1 (-1)).
  assert (scan_line (f 0 (-1)) steps 0 = scan_line (f 0 1) steps 0) as ->.
  { rewrite <- (scan_line_opp (f 0 1)). apply scan_line_ext.
    intros step _. unfold f. f_equal; lia. }
  destruct (scan_line (f 1 0) steps 0), (scan_line (f 0 1) steps 0),
    (scan_line (f 1 1) steps 0), (scan_line (f 1 (-1)) steps 0); reflexivity.
Qed.

Lemma check_win_mirror_witness :
  _check_win open_pair 1 5 3 = _check_win (mirror open_pair) 1 5 (6 - 3).
Proof.
  apply (check_win_mirror open_pair 1 5 3). apply wfb_wf. reflexivity.
Defined.

(** ** The evaluators *)

Section Evaluators.

Lemma filter_filter_andb {A : Type} (f g : A → bool) (l : list A) :
  List.filter f (List.filter g l) = List.filter (λ x, g x && f x) l.
Proof.
  induction l as [|x l IH]; [done|]. simpl.
  destruct (g x); simpl; [destruct (f x)|]; by rewrite IH.
Qed.

Lemma in_cells r c : In (r, c) cells → (r < 6)%nat ∧ (c < 7)%nat.
Proof.
  unfold cells, range. rewrite in_flat_map.
  intros (r' & Hr%in_seq & Hin). apply in_map_iff in Hin as (c' & [= <- <-] & Hc%in_seq).
  lia.
Qed.

(** The piece just dropped by the other side stands on the anchor, so the
    anchor never belongs to the player. *)
Lemma check_win_other_player board move player other new_board row col :
  other ≠ player → other ≠ 0 →
  _apply_move board move player = Some (new_board, row, col) →
  _check_win new_board other (Z.of_nat row) (Z.of_nat col) = false.
Proof.
  intros Hother Hzero (-> & Hrow & Hempty & -> & _)%apply_move_Some.
  apply check_win_anchor. unfold owned. rewrite !Nat2Z.id.
  assert (get (set_cell board row move player) row move ≠ other) as Hne.
  { unfold get, set_cell. rewrite list_lookup_alter_eq.
    unfold get in Hempty. destruct (board !! row) as [cells|]; simpl; [|done].
    destruct (decide (move < length cells)%nat).
    - rewrite list_lookup_insert_eq by done. done.
    - rewrite list_insert_ge by lia. destruct (cells !! move); congruence. }
  apply Z.eqb_neq in Hne. rewrite Hne. apply andb_false_r.
Qed.

Lemma winning_moves_loop board player (l : list nat) (n : Z) :
  ∃ n', for_each (λ winning_moves move,
    if get board 0 move =? 0 then
      do (test_board, test_row, test_col) <- _apply_move board move player;
      if _check_win test_board player (Z.of_nat test_row) (Z.of_nat test_col)
      then Some (winning_moves + 1)
      else Some winning_moves
    else Some winning_moves) l n = Some n'.
Proof.
  revert n. induction l as [|move rest IH]; intros n; simpl; [eauto|].
  destruct (get board 0 move =? 0) eqn:E; [|apply IH].
  apply Z.eqb_eq in E.
  destruct (apply_move_empty board move player 0%nat ltac:(lia) E)
    as (tb & i & ->).
  destruct (_check_win _ _ _ _); apply IH.
Qed.

Lemma winning_moves_total board player :
  ∃ n, winning_moves board player = Some n.
Proof. apply winning_moves_loop. Qed.

Lemma winning_moves_loop_count board player (l : list nat) (n : Z) :
  for_each (λ winning_moves move,
    if get board 0 move =? 0 then
      do (test_board, test_row, test_col) <- _apply_move board move player;
      if _check_win test_board player (Z.of_nat test_row) (Z.of_nat test_col)
      then Some (winning_moves + 1)
      else Some winning_moves
    else Some winning_moves) l n
  = Some (n + Z.of_nat (length (List.filter (λ move,
            (get board 0 move =? 0) && immediate_win board player move) l))).
Proof.
  revert n. induction l as [|move rest IH]; intros n.
  { simpl. f_equal. lia. }
  cbn [for_each List.filter].
  destruct (get board 0 move =? 0) eqn:E; cbn [andb]; [|by apply IH].
  apply Z.eqb_eq in E.
  destruct (apply_move_empty board move player 0%nat ltac:(lia) E)
    as (nb & i & Happly).
  assert (immediate_win board player move
          = _check_win nb player (Z.of_nat i) (Z.of_nat move)) as ->.
  { unfold immediate_win. by rewrite Happly. }
  rewrite Happly.
  destruct (_check_win nb player _ _); rewrite IH; f_equal; cbn [length]; lia.
Qed.

Lemma winning_moves_count board player :
  winning_moves board player
  = Some (Z.of_nat (length (List.filter (λ move,
            (get board 0 move =? 0) && immediate_win board player move)
            (range 7)))).
Proof. unfold winning_moves. by rewrite winning_moves_loop_count. Qed.

(** The inner loop of [_detect_forks] counts the winning replies. *)
Lemma winning_moves_replies board player :
  winning_moves board player
  = Some (Z.of_nat (length (winning_replies board player))).
Proof.
  rewrite winning_moves_count. unfold winning_replies, valid_moves.
  by rewrite filter_filter_andb.
Qed.

Lemma drop_fork_loop board player c :
  match _apply_move board c player with
  | Some (simulated_board, _, _) =>
      match winning_moves simulated_board player with
      | Some n => 1 <? n
      | None => false
      end
  | None => false
  end = drop_fork board player c.
Proof.
  unfold drop_fork, is_fork.
  destruct (_apply_move board c player) as [[[sb i] c']|]; [|done].
  rewrite winning_moves_replies.
  generalize (length (winning_replies sb player)). intros n.
  destruct (Z.ltb_spec 1 (Z.of_nat n)), (Nat.ltb_spec 1 n); done || lia.
Qed.

Lemma detect_forks_loop board player (l : list (nat * nat)) (score : Z) :
  Forall (λ cell, (cell.1 < 6)%nat) l →
  for_each (λ fork_score '(r, c),
    if get board r c =? 0 then
      do (simulated_board, row, col) <- _apply_move board c player;
      do winning_moves <- winning_moves simulated_board player;
      if 1 <? winning_moves then Some (fork_score + 50) else Some fork_score
    else Some fork_score) l score
  = Some (score + 50 * Z.of_nat (length (List.filter (λ '(r, c),
            (get board r c =? 0) && drop_fork board player c) l))).
Proof.
  revert score. induction l as [|[r c] rest IH]; intros score Hl.
  { simpl. f_equal. lia. }
  apply Forall_cons in Hl as [Hr Hrest]. simpl in Hr.
  cbn [for_each List.filter].
  destruct (get board r c =? 0) eqn:E; cbn [andb]; [|by apply IH].
  apply Z.eqb_eq in E.
  destruct (apply_move_empty board c player r Hr E) as (sb & i & Happly).
  destruct (winning_moves_total sb player) as [n Hn].
  assert (drop_fork board player c = (1 <? n)) as ->.
  { rewrite <- drop_fork_loop. by rewrite Happly, Hn. }
  rewrite Happly, Hn.
  destruct (1 <? n); rewrite IH by done; f_equal; cbn [length]; lia.
Qed.

Lemma detect_forks_count board player :
  _detect_forks board player
  = Some (50 * Z.of_nat (length (fork_cells board player))).
Proof.
  unfold _detect_forks, fork_cells. rewrite detect_forks_loop; [done|].
  apply List.Forall_forall. intros [r c] Hin%in_cells. simpl. lia.
Qed.

Lemma simple_evaluate_loop board (l : list nat) (score : Z) :
  for_each (λ score move,
    if get board 0 move =? 0 then
      do (new_board, row, col) <- _apply_move board move 1;
      if _check_win new_board 1 (Z.of_nat row) (Z.of_nat col)
      then Some (score + 100)
      else if _check_win new_board (-1) (Z.of_nat row) (Z.of_nat col)
      then Some (score - 100)
      else Some score
    else Some score) l score
  = Some (score + 100 * Z.of_nat (length (List.filter (λ move,
            (get board 0 move =? 0) && immediate_win board 1 move) l))).
Proof.
  revert score. induction l as [|move rest IH]; intros score.
  { simpl. f_equal. lia. }
  cbn [for_each List.filter].
  destruct (get board 0 move =? 0) eqn:E; cbn [andb]; [|by apply IH].
  apply Z.eqb_eq in E.
  destruct (apply_move_empty board move 1 0%nat ltac:(lia) E)
    as (nb & i & Happly).
  assert (immediate_win board 1 move
          = _check_win nb 1 (Z.of_nat i) (Z.of_nat move)) as ->.
  { unfold immediate_win. by rewrite Happly. }
  rewrite Happly.
  rewrite (check_win_other_player board move 1 (-1) nb i move)
    by (done || lia).
  destruct (_check_win nb 1 _ _); rewrite IH; f_equal; cbn [length]; lia.
Qed.

Lemma simple_evaluate_count board :
  _simple_evaluate_board board
  = Some (100 * Z.of_nat (length (winning_columns board))).
Proof.
  unfold _simple_evaluate_board, winning_columns, valid_moves.
  rewrite simple_evaluate_loop, filter_filter_andb. done.
Qed.

Lemma evaluate_board_total board :
  ∃ score, _evaluate_board board = Some score.
Proof.
  unfold _evaluate_board. rewrite !detect_forks_count. eauto.
Qed.

Lemma evaluate_total self board :
  ∃ score, evaluate self board = Some (Fin score).
Proof.
  unfold evaluate. destruct (heuristic self).
  - destruct (evaluate_board_total board) as [score ->]. eauto.
  - rewrite simple_evaluate_count. eauto.
Qed.

End Evaluators.

(** C6, as stated, fails: on [open_pair] two empty cells are such that a
    piece of self put there leaves two winning columns, yet the fork term
    the program computes is 600, not 100. *)
Lemma detect_forks_counterexample :
  _detect_forks open_pair 1 = Some 600
  ∧ spec_detect_forks open_pair 1 = 100
  ∧ _detect_forks open_pair 1 ≠ Some (spec_detect_forks open_pair 1).
Proof. split; [|split]; [vm_compute; reflexivity..|vm_compute; discriminate]. Qed.

(** C6, amended. The fork term adds +50 for every empty cell such that
    dropping a piece of self into that cell's column (the piece lands on the
    lowest empty cell of the column, whichever of its empty cells is being
    visited) leaves more than one legal column in which a further piece of
    self completes a win; the same count for the opponent is subtracted. *)
Theorem evaluate_board_fork_term (board : Board) :
  _detect_forks board 1 = Some (50 * Z.of_nat (length (fork_cells board 1)))
  ∧ _detect_forks board (-1)
    = Some (50 * Z.of_nat (length (fork_cells board (-1))))
  ∧ _evaluate_board board
    = Some (pattern_score board (0 + center_count board * 4)
            + 50 * Z.of_nat (length (fork_cells board 1))
            - 50 * Z.of_nat (length (fork_cells board (-1))))
  ∧ ∀ player r c,
      In (r, c) (fork_cells board player)
      ↔ (r < 6)%nat ∧ (c < 7)%nat ∧ get board r c = 0
        ∧ ∃ simulated_board row col,
            _apply_move board c player = Some (simulated_board, row, col)
            ∧ (1 < length (List.filter
                     (λ move,
                        match _apply_move simulated_board move player with
                        | Some (test_board, test_row, test_col) =>
                            _check_win test_board player
                              (Z.of_nat test_row) (Z.of_nat test_col)
                        | None => false
                        end)
                     (valid_moves simulated_board)))%nat.
Proof.
  split; [|split; [|split]]; try apply detect_forks_count.
  - unfold _evaluate_board. rewrite !detect_forks_count. done.
  - intros player r c. unfold fork_cells. rewrite filter_In.
    rewrite andb_true_iff, Z.eqb_eq. unfold drop_fork, is_fork.
    split.
    + intros (Hin%in_cells & Hzero & Hfork).
      destruct (_apply_move board c player) as [[[sb i] c']|]; [|done].
      apply Nat.ltb_lt in Hfork.
      split; [lia|]. split; [lia|]. split; [done|]. by exists sb, i, c'.
    + intros (Hr & Hc & Hzero & sb & i & c' & -> & Hfork).
      split; [|split; [done|by apply Nat.ltb_lt]].
      unfold cells, range. apply in_flat_map. exists r.
      split; [apply in_seq; lia|]. apply in_map, in_seq. lia.
Qed.

(** C10. The simple evaluation is 100 times the number of legal columns in
    which a piece of self wins at once; the branch that subtracts 100 is
    never taken, because the win check for the opponent is anchored at the
    cell that self has just filled; so the value is never negative. *)
Theorem simple_evaluate_board_value (board : Board) :
  _simple_evaluate_board board
  = Some (100 * Z.of_nat (length (winning_columns board)))
  ∧ (∀ move new_board row col,
       _apply_move board move 1 = Some (new_board, row, col) →
       _check_win new_board (-1) (Z.of_nat row) (Z.of_nat col) = false)
  ∧ ∃ score, _simple_evaluate_board board = Some score ∧ 0 <= score.
Proof.
  split; [apply simple_evaluate_count|]. split.
  - intros move new_board row col Happly.
    by apply (check_win_other_player board move 1 (-1)).
  - rewrite simple_evaluate_count. eexists. split; [done|]. lia.
Qed.

(** ** The order on scores *)

(** Case analysis on every score in sight, then linear arithmetic. *)
Ltac score_cases :=
  unfold Score.max, Score.min, Score.lt in *;
  repeat match goal with x : Score |- _ => destruct x end;
  cbn [Score.gt Score.le] in *;
  repeat (match goal with
    | H : context [(?a <? ?b)%Z] |- _ => destruct (Z.ltb_spec a b)
    | |- context [(?a <? ?b)%Z] => destruct (Z.ltb_spec a b)
    | H : context [(?a <=? ?b)%Z] |- _ => destruct (Z.leb_spec a b)
    | |- context [(?a <=? ?b)%Z] => destruct (Z.leb_spec a b)
    end; cbn [Score.gt Score.le] in *);
  try discriminate; try reflexivity; try lia;
  try (f_equal; lia);
  try (intuition (discriminate || congruence || lia)).

Section ScoreOrder.

Implicit Types x y z : Score.

Lemma gt_not_le x y : Score.gt x y = negb (Score.le x y).
Proof. score_cases. Qed.

Lemma le_refl x : x ⪯ x.
Proof. score_cases. Qed.

Lemma le_trans x y z : x ⪯ y → y ⪯ z → x ⪯ z.
Proof. intros ??. score_cases. Qed.

Lemma le_antisym x y : x ⪯ y → y ⪯ x → x = y.
Proof. intros ??. score_cases. Qed.

Lemma lt_le x y : x ≺ y → x ⪯ y.
Proof. intros ?. score_cases. Qed.

Lemma lt_le_trans x y z : x ≺ y → y ⪯ z → x ≺ z.
Proof. intros ??. score_cases. Qed.

Lemma le_lt_trans x y z : x ⪯ y → y ≺ z → x ≺ z.
Proof. intros ??. score_cases. Qed.

Lemma lt_or_le x y : x ≺ y ∨ y ⪯ x.
Proof. score_cases. Qed.

Lemma lt_not_le x y : x ≺ y → y ⪯ x → False.
Proof. intros ??. score_cases. Qed.

Lemma le_PosInf x : x ⪯ PosInf.
Proof. score_cases. Qed.

Lemma NegInf_le x : NegInf ⪯ x.
Proof. score_cases. Qed.

Lemma PosInf_le x : PosInf ⪯ x → x = PosInf.
Proof. intros ?. score_cases. Qed.

Lemma le_NegInf x : x ⪯ NegInf → x = NegInf.
Proof. intros ?. score_cases. Qed.

Lemma max_assoc x y z :
  Score.max (Score.max x y) z = Score.max x (Score.max y z).
Proof. score_cases. Qed.

Lemma min_assoc x y z :
  Score.min (Score.min x y) z = Score.min x (Score.min y z).
Proof. score_cases. Qed.

Lemma max_NegInf x : Score.max NegInf x = x.
Proof. score_cases. Qed.

Lemma min_PosInf x : Score.min PosInf x = x.
Proof. score_cases. Qed.

End ScoreOrder.

(** ** The search always answers *)

Section Totality.

Variable self : MinimaxPlayer.

Lemma finish_Some valid eval best_move :
  valid ≠ [] →
  ∃ move, finish valid eval best_move = Some (eval, Some move)
    ∧ (best_move = Some move
       ∨ best_move = None ∧ head valid = Some move).
Proof.
  intros Hne. unfold finish. destruct best_move as [move|]; [eauto|].
  destruct valid as [|move rest]; [done|]. simpl. eauto.
Qed.

Lemma head_In {A : Type} (l : list A) (x : A) : head l = Some x → In x l.
Proof. destruct l; [done|]. intros [= ->]. by left. Qed.

Lemma max_loop_total rec board valid moves max_eval best_move alpha beta :
  (∀ new_board a b, ∃ outcome, rec new_board a b = Some outcome) →
  (∀ move, In move moves → In move (valid_moves board)) →
  valid ≠ [] →
  ∃ score move,
    max_loop rec board valid moves max_eval best_move alpha beta
      = Some (score, Some move)
    ∧ (In move moves ∨ best_move = Some move
       ∨ head valid = Some move).
Proof.
  intros Hrec Hmoves Hne.
  revert max_eval best_move alpha.
  induction moves as [|move rest IH]; intros max_eval best_move alpha.
  - simpl. destruct (finish_Some valid max_eval best_move Hne)
      as (m & -> & [?|[_ ?]]); eauto 6.
  - cbn [max_loop].
    destruct (apply_move_valid board move 1) as (nb & i & ->);
      [apply Hmoves; by left|].
    destruct (_check_win nb 1 _ _); [exists PosInf, move; split; [done|by left; left]|].
    destruct (Hrec nb alpha beta) as [[e o] ->].
    destruct (Score.gt e max_eval).
    + destruct (Score.le beta (Score.max alpha e)).
      * exists e, move. split; [done|]. left. by left.
      * destruct (IH ltac:(intros; apply Hmoves; by right)
                    e (Some move) (Score.max alpha e))
          as (s & m & -> & [?|[[= <-]|?]]);
          exists s; eexists; (split; [done|]);
          [left; by right|left; by left|by right; right].
    + destruct (Score.le beta (Score.max alpha e)).
      * destruct (finish_Some valid max_eval best_move Hne)
          as (m & -> & [?|[_ ?]]); eauto 6.
      * destruct (IH ltac:(intros; apply Hmoves; by right)
                    max_eval best_move (Score.max alpha e))
          as (s & m & -> & [?|[?|?]]);
          exists s; eexists; (split; [done|]);
          [left; by right|by right; left|by right; right].
Qed.

Lemma min_loop_total rec board valid moves min_eval best_move alpha beta :
  (∀ new_board a b, ∃ outcome, rec new_board a b = Some outcome) →
  (∀ move, In move moves → In move (valid_moves board)) →
  valid ≠ [] →
  ∃ score move,
    min_loop rec board valid moves min_eval best_move alpha beta
      = Some (score, Some move)
    ∧ (In move moves ∨ best_move = Some move
       ∨ head valid = Some move).
Proof.
  intros Hrec Hmoves Hne.
  revert min_eval best_move beta.
  induction moves as [|move rest IH]; intros min_eval best_move beta.
  - simpl. destruct (finish_Some valid min_eval best_move Hne)
      as (m & -> & [?|[_ ?]]); eauto 6.
  - cbn [min_loop].
    destruct (apply_move_valid board move (-1)) as (nb & i & ->);
      [apply Hmoves; by left|].
    destruct (_check_win nb (-1) _ _); [exists NegInf, move; split; [done|by left; left]|].
    destruct (Hrec nb alpha beta) as [[e o] ->].
    destruct (Score.lt e min_eval).
    + destruct (Score.le (Score.min beta e) alpha).
      * exists e, move. split; [done|]. left. by left.
      * destruct (IH ltac:(intros; apply Hmoves; by right)
                    e (Some move) (Score.min beta e))
          as (s & m & -> & [?|[[= <-]|?]]);
          exists s; eexists; (split; [done|]);
          [left; by right|left; by left|by right; right].
    + destruct (Score.le (Score.min beta e) alpha).
      * destruct (finish_Some valid min_eval best_move Hne)
          as (m & -> & [?|[_ ?]]); eauto 6.
      * destruct (IH ltac:(intros; apply Hmoves; by right)
                    min_eval best_move (Score.min beta e))
          as (s & m & -> & [?|[?|?]]);
          exists s; eexists; (split; [done|]);
          [left; by right|by right; left|by right; right].
Qed.

Lemma minimax_total board depth maximizing alpha beta :
  ∃ score best_move,
    _minimax self board depth maximizing alpha beta = Some (score, best_move)
    ∧ (valid_moves board = [] → best_move = None)
    ∧ (valid_moves board ≠ [] →
       ∃ move, best_move = Some move ∧ In move (valid_moves board)).
Proof.
  revert board maximizing alpha beta.
  induction depth as [|depth IH]; intros board maximizing alpha beta.
  - simpl. destruct (evaluate_total self board) as [score ->].
    exists (Fin score), (head (valid_moves board)). split; [done|].
    split; [by intros ->|].
    destruct (valid_moves board) as [|move rest]; [done|].
    intros _. exists move. split; [done|by left].
  - cbn [_minimax].
    destruct (valid_moves board) as [|move0 rest0] eqn:Hvm.
    { destruct (evaluate_total self board) as [score ->].
      exists (Fin score), None. by repeat split. }
    rewrite <- Hvm.
    assert (valid_moves board ≠ []) as Hne by (by rewrite Hvm).
    destruct maximizing.
    + destruct (max_loop_total
                  (λ nb a b, _minimax self nb depth false a b)
                  board (valid_moves board) (valid_moves board)
                  NegInf None alpha beta) as (s & m & -> & Hm);
        [intros nb a b; destruct (IH nb false a b) as (?&?&->&_); eauto
        |done|done|].
      exists s, (Some m). split; [done|]. split; [done|].
      intros _. exists m. split; [done|].
      destruct Hm as [?|[?|?%head_In]]; done.
    + destruct (min_loop_total
                  (λ nb a b, _minimax self nb depth true a b)
                  board (valid_moves board) (valid_moves board)
                  PosInf None alpha beta) as (s & m & -> & Hm);
        [intros nb a b; destruct (IH nb true a b) as (?&?&->&_); eauto
        |done|done|].
      exists s, (Some m). split; [done|]. split; [done|].
      intros _. exists m. split; [done|].
      destruct Hm as [?|[?|?%head_In]]; done.
Qed.

End Totality.


(** ** Alpha-beta pruning against plain minimax *)

Section OrderFacts.

Implicit Types a b e m t x M T : Score.

Lemma max_update e M (move : nat) best :
  (if Score.gt e M then (e, Some move) else (M, best))
  = (Score.max M e, if Score.gt e M then Some move else best).
Proof. unfold Score.max. by destruct (Score.gt e M). Qed.

Lemma min_update e m (move : nat) best :
  (if Score.lt e m then (e, Some move) else (m, best))
  = (Score.min m e, if Score.lt e m then Some move else best).
Proof. unfold Score.min. by destruct (Score.lt e m). Qed.

Lemma le_false_lt x y : Score.le x y = false → y ≺ x.
Proof. intros ?. score_cases. Qed.

Lemma gt_false_le x y : Score.gt x y = false → x ⪯ y.
Proof. intros ?. score_cases. Qed.

Lemma max_lower a M T e t :
  (Score.max a M ≺ e → e ⪯ t) → (a ≺ M → M ⪯ T) →
  a ≺ Score.max M e → Score.max M e ⪯ Score.max T t.
Proof. intros ???. score_cases. Qed.

Lemma max_lt_r x e b : Score.max x e ≺ b → e ≺ b.
Proof. intros ?. score_cases. Qed.

Lemma max_mono T M t e : T ⪯ M → t ⪯ e → Score.max T t ⪯ Score.max M e.
Proof. intros ??. score_cases. Qed.

Lemma max_break a b M : a ≺ b → b ⪯ Score.max a M → M ≺ b → False.
Proof. intros ???. score_cases. Qed.

Lemma min_upper b m T e t :
  (e ≺ Score.min b m → t ⪯ e) → (m ≺ b → T ⪯ m) →
  Score.min m e ≺ b → Score.min T t ⪯ Score.min m e.
Proof. intros ???. score_cases. Qed.

Lemma min_lt_r x e a : a ≺ Score.min x e → a ≺ e.
Proof. intros ?. score_cases. Qed.

Lemma min_mono T m t e : m ⪯ T → e ⪯ t → Score.min m e ⪯ Score.min T t.
Proof. intros ??. score_cases. Qed.

Lemma min_break a b m : a ≺ b → Score.min b m ⪯ a → a ≺ m → False.
Proof. intros ???. score_cases. Qed.

Lemma le_max_l x y : x ⪯ Score.max x y.
Proof. score_cases. Qed.

Lemma min_le_l x y : Score.min x y ⪯ x.
Proof. score_cases. Qed.

End OrderFacts.

Section AlphaBeta.

Variable board : Board.
Variable valid : list nat.
Hypothesis valid_nonempty : valid ≠ [].

Variable rec : Board → Score → Score → option Outcome.
Variable frec : Board → option Outcome.
Hypothesis rec_refines : refines rec frec.

Lemma frec_total new_board : ∃ t m, frec new_board = Some (t, m).
Proof.
  destruct (rec_refines new_board NegInf PosInf eq_refl)
    as (r & m & t & m' & _ & ? & _). eauto.
Qed.

(** The unpruned loops run to the end, and their running best only
    improves. *)
Lemma full_max_loop_total moves T best :
  (∀ move, In move moves → In move (valid_moves board)) →
  ∃ t m, full_max_loop frec board valid moves T best = Some (t, Some m)
    ∧ T ⪯ t.
Proof.
  intros Hmoves. revert T best.
  induction moves as [|move rest IH]; intros T best.
  - simpl. destruct (finish_Some valid T best valid_nonempty) as (m & -> & _).
    exists T, m. split; [done|apply le_refl].
  - cbn [full_max_loop].
    destruct (apply_move_valid board move 1) as (nb & i & ->);
      [apply Hmoves; by left|].
    assert (∃ e, (if _check_win nb 1 (Z.of_nat i) (Z.of_nat move)
                  then Some PosInf
                  else do (eval_score, _) <- frec nb; Some eval_score)
                 = Some e) as [e ->].
    { destruct (_check_win nb 1 _ _); [eauto|].
      destruct (frec_total nb) as (t & m & ->). eauto. }
    rewrite max_update.
    destruct (IH ltac:(intros; apply Hmoves; by right) (Score.max T e)
                (if Score.gt e T then Some move else best))
      as (t & m & -> & Hle).
    exists t, m. split; [done|].
    eapply le_trans; [apply le_max_l|exact Hle].
Qed.

Lemma full_min_loop_total moves T best :
  (∀ move, In move moves → In move (valid_moves board)) →
  ∃ t m, full_min_loop frec board valid moves T best = Some (t, Some m)
    ∧ t ⪯ T.
Proof.
  intros Hmoves. revert T best.
  induction moves as [|move rest IH]; intros T best.
  - simpl. destruct (finish_Some valid T best valid_nonempty) as (m & -> & _).
    exists T, m. split; [done|apply le_refl].
  - cbn [full_min_loop].
    destruct (apply_move_valid board move (-1)) as (nb & i & ->);
      [apply Hmoves; by left|].
    assert (∃ e, (if _check_win nb (-1) (Z.of_nat i) (Z.of_nat move)
                  then Some NegInf
                  else do (eval_score, _) <- frec nb; Some eval_score)
                 = Some e) as [e ->].
    { destruct (_check_win nb (-1) _ _); [eauto|].
      destruct (frec_total nb) as (t & m & ->). eauto. }
    rewrite min_update.
    destruct (IH ltac:(intros; apply Hmoves; by right) (Score.min T e)
                (if Score.lt e T then Some move else best))
      as (t & m & -> & Hle).
    exists t, m. split; [done|].
    eapply le_trans; [exact Hle|apply min_le_l].
Qed.

(** Once the running best is the top score, nothing replaces it. *)
Lemma full_max_loop_top moves best :
  (∀ move, In move moves → In move (valid_moves board)) →
  full_max_loop frec board valid moves PosInf best
  = finish valid PosInf best.
Proof.
  intros Hmoves. induction moves as [|move rest IH]; [done|].
  cbn [full_max_loop].
  destruct (apply_move_valid board move 1) as (nb & i & ->);
    [apply Hmoves; by left|].
  destruct (_check_win nb 1 _ _).
  - simpl. apply IH. intros; apply Hmoves; by right.
  - destruct (frec_total nb) as (t & m & ->).
    assert (Score.gt t PosInf = false) as -> by (by destruct t).
    apply IH. intros; apply Hmoves; by right.
Qed.

Lemma full_min_loop_bottom moves best :
  (∀ move, In move moves → In move (valid_moves board)) →
  full_min_loop frec board valid moves NegInf best
  = finish valid NegInf best.
Proof.
  intros Hmoves. induction moves as [|move rest IH]; [done|].
  cbn [full_min_loop].
  destruct (apply_move_valid board move (-1)) as (nb & i & ->);
    [apply Hmoves; by left|].
  destruct (_check_win nb (-1) _ _).
  - simpl. apply IH. intros; apply Hmoves; by right.
  - destruct (frec_total nb) as (t & m & ->).
    assert (Score.lt t NegInf = false) as -> by (by destruct t).
    apply IH. intros; apply Hmoves; by right.
Qed.

(** The pruned maximizing loop bounds the unpruned one. *)
Lemma max_loop_bound alpha beta moves M best a T bestF :
  (∀ move, In move moves → In move (valid_moves board)) →
  alpha ≺ beta → a = Score.max alpha M → a ≺ beta →
  T ⪯ M → (alpha ≺ M → M ⪯ T) →
  ∃ r m t m',
    max_loop rec board valid moves M best a beta = Some (r, m)
    ∧ full_max_loop frec board valid moves T bestF = Some (t, m')
    ∧ bound alpha beta r t.
Proof.
  intros Hmoves Hwindow. revert M best a T bestF.
  induction moves as [|move rest IH];
    intros M best a T bestF Ha Hopen Hupper Hlower.
  - simpl.
    destruct (finish_Some valid M best valid_nonempty) as (m & -> & _).
    destruct (finish_Some valid T bestF valid_nonempty) as (m' & -> & _).
    exists M, (Some m), T, (Some m'). by repeat split.
  - cbn [max_loop full_max_loop].
    destruct (apply_move_valid board move 1) as (nb & i & ->);
      [apply Hmoves; by left|].
    assert (∀ move', In move' rest → In move' (valid_moves board))
      as Hrest by (intros; apply Hmoves; by right).
    destruct (_check_win nb 1 _ _).
    { rewrite max_update.
      destruct (full_max_loop_total rest (Score.max T PosInf)
                  (if Score.gt PosInf T then Some move else bestF) Hrest)
        as (t & m' & -> & Hle).
      exists PosInf, (Some move), t, (Some m'). split; [done|]. split; [done|].
      assert (t = PosInf) as ->.
      { apply PosInf_le. eapply le_trans; [|exact Hle]. by destruct T. }
      split; [done|]. intros _. done. }
    destruct (rec_refines nb a beta Hopen)
      as (e & o & t & o' & -> & -> & Hup & Hlow).
    rewrite !max_update.
    assert (alpha ≺ Score.max M e → Score.max M e ⪯ Score.max T t)
      as Hlower'.
    { apply max_lower; [by rewrite <- Ha|done]. }
    destruct (Score.le beta (Score.max a e)) eqn:Hbreak.
    + destruct (finish_Some valid (Score.max M e)
                  (if Score.gt e M then Some move else best) valid_nonempty)
        as (m & -> & _).
      destruct (full_max_loop_total rest (Score.max T t)
                  (if Score.gt t T then Some move else bestF) Hrest)
        as (t' & m' & -> & Hle).
      exists (Score.max M e), (Some m), t', (Some m').
      split; [done|]. split; [done|]. split.
      * intros Hlt. exfalso.
        apply (max_break alpha beta (Score.max M e)); [done| |done].
        by rewrite <- max_assoc, <- Ha.
      * intros Hlt. eapply le_trans; [by apply Hlower'|done].
    + apply le_false_lt in Hbreak.
      apply IH; try done.
      * by rewrite Ha, max_assoc.
      * apply max_mono; [done|]. apply Hup. by eapply max_lt_r.
Qed.

(** The pruned minimizing loop bounds the unpruned one. *)
Lemma min_loop_bound alpha beta moves M best b T bestF :
  (∀ move, In move moves → In move (valid_moves board)) →
  alpha ≺ beta → b = Score.min beta M → alpha ≺ b →
  M ⪯ T → (M ≺ beta → T ⪯ M) →
  ∃ r m t m',
    min_loop rec board valid moves M best alpha b = Some (r, m)
    ∧ full_min_loop frec board valid moves T bestF = Some (t, m')
    ∧ bound alpha beta r t.
Proof.
  intros Hmoves Hwindow. revert M best b T bestF.
  induction moves as [|move rest IH];
    intros M best b T bestF Hb Hopen Hlower Hupper.
  - simpl.
    destruct (finish_Some valid M best valid_nonempty) as (m & -> & _).
    destruct (finish_Some valid T bestF valid_nonempty) as (m' & -> & _).
    exists M, (Some m), T, (Some m'). by repeat split.
  - cbn [min_loop full_min_loop].
    destruct (apply_move_valid board move (-1)) as (nb & i & ->);
      [apply Hmoves; by left|].
    assert (∀ move', In move' rest → In move' (valid_moves board))
      as Hrest by (intros; apply Hmoves; by right).
    destruct (_check_win nb (-1) _ _).
    { rewrite min_update.
      destruct (full_min_loop_total rest (Score.min T NegInf)
                  (if Score.lt NegInf T then Some move else bestF) Hrest)
        as (t & m' & -> & Hle).
      exists NegInf, (Some move), t, (Some m'). split; [done|]. split; [done|].
      assert (t = NegInf) as ->.
      { apply le_NegInf. eapply le_trans; [exact Hle|]. by destruct T. }
      split; [done|]. intros Hlt. done. }
    destruct (rec_refines nb alpha b Hopen)
      as (e & o & t & o' & -> & -> & Hup & Hlow).
    rewrite !min_update.
    assert (Score.min M e ≺ beta → Score.min T t ⪯ Score.min M e)
      as Hupper'.
    { apply min_upper; [by rewrite <- Hb|done]. }
    destruct (Score.le (Score.min b e) alpha) eqn:Hbreak.
    + destruct (finish_Some valid (Score.min M e)
                  (if Score.lt e M then Some move else best) valid_nonempty)
        as (m & -> & _).
      destruct (full_min_loop_total rest (Score.min T t)
                  (if Score.lt t T then Some move else bestF) Hrest)
        as (t' & m' & -> & Hle).
      exists (Score.min M e), (Some m), t', (Some m').
      split; [done|]. split; [done|]. split.
      * intros Hlt. eapply le_trans; [done|by apply Hupper'].
      * intros Hlt. exfalso.
        apply (min_break alpha beta (Score.min M e)); [done| |done].
        by rewrite <- min_assoc, <- Hb.
    + apply le_false_lt in Hbreak.
      apply IH; try done.
      * by rewrite Hb, min_assoc.
      * apply min_mono; [done|]. apply Hlow. by eapply min_lt_r.
Qed.

End AlphaBeta.

Section RootWindow.

Variable board : Board.
Variable valid : list nat.

Variable rec : Board → Score → Score → option Outcome.
Variable frec : Board → option Outcome.
Hypothesis rec_refines : refines rec frec.

Lemma bound_exact_above M e t :
  bound M PosInf e t → Score.gt e M = true → t = e.
Proof. intros [Hup Hlow] Hgt. unfold Score.lt in *. score_cases. Qed.

Lemma bound_below M e t :
  bound M PosInf e t → M ≺ PosInf → Score.gt e M = false →
  Score.gt t M = false.
Proof. intros [Hup Hlow] ? Hgt. unfold Score.lt in *. score_cases. Qed.

Lemma bound_exact_below M e t :
  bound NegInf M e t → Score.lt e M = true → t = e.
Proof. intros [Hup Hlow] Hlt. unfold Score.lt in *. score_cases. Qed.

Lemma bound_above M e t :
  bound NegInf M e t → NegInf ≺ M → Score.lt e M = false →
  Score.lt t M = false.
Proof. intros [Hup Hlow] ? Hlt. unfold Score.lt in *. score_cases. Qed.

Lemma max_gt M e : Score.gt e M = true → Score.max M e = e.
Proof. unfold Score.max. by intros ->. Qed.

Lemma max_not_gt M e : Score.gt e M = false → Score.max M e = M.
Proof. unfold Score.max. by intros ->. Qed.

Lemma min_lt M e : Score.lt e M = true → Score.min M e = e.
Proof. unfold Score.min. by intros ->. Qed.

Lemma min_not_lt M e : Score.lt e M = false → Score.min M e = M.
Proof. unfold Score.min. by intros ->. Qed.

Lemma le_PosInf_eq e : Score.le PosInf e = true → e = PosInf.
Proof. by destruct e. Qed.

Lemma le_NegInf_eq e : Score.le e NegInf = true → e = NegInf.
Proof. by destruct e. Qed.

(** With the window of the root, the maximizing loop keeps the running
    best of the unpruned loop, move included. *)
Lemma max_loop_root moves M best :
  (∀ move, In move moves → In move (valid_moves board)) →
  M ≺ PosInf →
  max_loop rec board valid moves M best M PosInf
  = full_max_loop frec board valid moves M best.
Proof.
  intros Hmoves. revert M best.
  induction moves as [|move rest IH]; intros M best HM; [done|].
  cbn [max_loop full_max_loop].
  destruct (apply_move_valid board move 1) as (nb & i & ->);
    [apply Hmoves; by left|].
  assert (∀ move', In move' rest → In move' (valid_moves board))
    as Hrest by (intros; apply Hmoves; by right).
  destruct (_check_win nb 1 _ _).
  { assert (Score.gt PosInf M = true) as -> by exact HM.
    by rewrite (full_max_loop_top board valid rec frec rec_refines). }
  destruct (rec_refines nb M PosInf HM)
    as (e & o & t & o' & -> & -> & Hbound).
  destruct (Score.gt e M) eqn:Hgt.
  - rewrite (bound_exact_above M e t Hbound Hgt), Hgt.
    rewrite (max_gt M e Hgt).
    destruct (Score.le PosInf e) eqn:Htop.
    + apply le_PosInf_eq in Htop as ->.
      by rewrite (full_max_loop_top board valid rec frec rec_refines).
    + apply IH; [done|]. by apply le_false_lt.
  - rewrite (bound_below M e t Hbound HM Hgt).
    rewrite (max_not_gt M e Hgt).
    assert (Score.le PosInf M = false) as -> by (by destruct M).
    by apply IH.
Qed.

Lemma min_loop_root moves M best :
  (∀ move, In move moves → In move (valid_moves board)) →
  NegInf ≺ M →
  min_loop rec board valid moves M best NegInf M
  = full_min_loop frec board valid moves M best.
Proof.
  intros Hmoves. revert M best.
  induction moves as [|move rest IH]; intros M best HM; [done|].
  cbn [min_loop full_min_loop].
  destruct (apply_move_valid board move (-1)) as (nb & i & ->);
    [apply Hmoves; by left|].
  assert (∀ move', In move' rest → In move' (valid_moves board))
    as Hrest by (intros; apply Hmoves; by right).
  destruct (_check_win nb (-1) _ _).
  { assert (Score.lt NegInf M = true) as -> by exact HM.
    by rewrite (full_min_loop_bottom board valid rec frec rec_refines). }
  destruct (rec_refines nb NegInf M HM)
    as (e & o & t & o' & -> & -> & Hbound).
  destruct (Score.lt e M) eqn:Hlt.
  - rewrite (bound_exact_below M e t Hbound Hlt), Hlt.
    rewrite (min_lt M e Hlt).
    destruct (Score.le e NegInf) eqn:Hbottom.
    + apply le_NegInf_eq in Hbottom as ->.
      by rewrite (full_min_loop_bottom board valid rec frec rec_refines).
    + apply IH; [done|]. by apply le_false_lt.
  - rewrite (bound_above M e t Hbound HM Hlt).
    rewrite (min_not_lt M e Hlt).
    assert (Score.le M NegInf = false) as -> by (by destruct M).
    by apply IH.
Qed.

End RootWindow.

Section Equivalence.

Variable self : MinimaxPlayer.

Lemma bound_refl alpha beta r : bound alpha beta r r.
Proof. split; intros _; apply le_refl. Qed.

(** Whatever the window, the pruned search bounds the unpruned value. *)
Lemma minimax_bound depth :
  ∀ maximizing,
    refines (λ board alpha beta,
               _minimax self board depth maximizing alpha beta)
            (λ board, full_minimax self board depth maximizing).
Proof.
  induction depth as [|depth IH]; intros maximizing board alpha beta Hopen.
  - simpl. destruct (evaluate_total self board) as [score ->].
    exists (Fin score), (head (valid_moves board)),
      (Fin score), (head (valid_moves board)).
    split; [done|]. split; [done|]. apply bound_refl.
  - cbn [_minimax full_minimax].
    destruct (valid_moves board) as [|move0 rest0] eqn:Hvalid.
    { destruct (evaluate_total self board) as [score ->].
      exists (Fin score), None, (Fin score), None.
      split; [done|]. split; [done|]. apply bound_refl. }
    rewrite <- Hvalid.
    assert (valid_moves board ≠ []) as Hne by (by rewrite Hvalid).
    destruct maximizing.
    + apply (max_loop_bound board (valid_moves board) Hne _ _ (IH false));
        try done; by destruct alpha.
    + apply (min_loop_bound board (valid_moves board) Hne _ _ (IH true));
        try done; by destruct beta.
Qed.

Lemma minimax_root board depth maximizing :
  _minimax self board depth maximizing NegInf PosInf
  = full_minimax self board depth maximizing.
Proof.
  destruct depth as [|depth]; [done|].
  cbn [_minimax full_minimax].
  destruct (valid_moves board) as [|move0 rest0] eqn:Hvalid; [done|].
  rewrite <- Hvalid.
  destruct maximizing.
  - by apply (max_loop_root board (valid_moves board) _ _
                (minimax_bound depth false)).
  - by apply (min_loop_root board (valid_moves board) _ _
                (minimax_bound depth true)).
Qed.

End Equivalence.

(** C1. For every board and every depth, and for either side to move, the
    score and the move that the alpha-beta search returns from the window
    (-infinity, +infinity) are those of the unpruned minimax over the same
    tree: pruning and the early return at a winning move change the work
    done, not the result. *)
Theorem alpha_beta_equivalence (self : MinimaxPlayer) (board : Board)
  (depth : nat) (maximizing : bool) :
  _minimax self board depth maximizing NegInf PosInf
  = full_minimax self board depth maximizing
  ∧ ∃ score best_move,
      _minimax self board depth maximizing NegInf PosInf
      = Some (score, best_move).
Proof.
  split; [apply minimax_root|].
  destruct (minimax_total self board depth maximizing NegInf PosInf)
    as (score & best_move & ? & _). eauto.
Qed.

(** ** The order of the moves and the choice among equals *)

Section TieBreak.

Lemma filter_seq_sorted (f : nat → bool) (s n : nat) :
  StronglySorted lt (List.filter f (seq s n)).
Proof.
  revert s. induction n as [|n IH]; intros s; simpl; [constructor|].
  destruct (f s); [|apply IH].
  constructor; [apply IH|].
  apply List.Forall_forall. intros x [Hx%in_seq _]%filter_In. lia.
Qed.

Lemma valid_moves_sorted board : StronglySorted lt (valid_moves board).
Proof. apply filter_seq_sorted. Qed.

Lemma sorted_before (pre post : list nat) m m' :
  StronglySorted lt (pre ++ m :: post) →
  In m' (pre ++ m :: post) → (m' < m)%nat → In m' pre.
Proof.
  intros Hsorted Hin Hlt. apply in_app_or in Hin as [?|[->|Hpost]]; [done|lia|].
  apply StronglySorted_app in Hsorted as (_ & _ & Hsorted).
  apply StronglySorted_cons in Hsorted as [Hall _].
  rewrite List.Forall_forall in Hall. apply Hall in Hpost. lia.
Qed.

Lemma sorted_after (pre post : list nat) m m' :
  StronglySorted lt (pre ++ m :: post) →
  In m' (m :: post) → (m ≤ m')%nat.
Proof.
  intros Hsorted [->|Hpost]; [lia|].
  apply StronglySorted_app in Hsorted as (_ & _ & Hsorted).
  apply StronglySorted_cons in Hsorted as [Hall _].
  rewrite List.Forall_forall in Hall. apply Hall in Hpost. lia.
Qed.

Lemma finish_inv valid eval best score move :
  finish valid eval best = Some (score, move) →
  score = eval ∧ ∃ m, move = Some m
    ∧ (best = Some m ∨ best = None ∧ head valid = Some m).
Proof.
  unfold finish. destruct best as [m|].
  - intros [= <- <-]. split; [done|]. exists m. split; [done|by left].
  - destruct (head valid) as [m|]; [|done]. intros [= <- <-].
    split; [done|]. exists m. split; [done|by right].
Qed.

Variable board : Board.
Variable valid : list nat.
Variable frec : Board → option Outcome.

Lemma full_max_loop_cons move rest T best :
  full_max_loop frec board valid (move :: rest) T best
  = do e <- move_value frec board true move;
    full_max_loop frec board valid rest (Score.max T e)
      (if Score.gt e T then Some move else best).
Proof.
  cbn [full_max_loop]. unfold move_value, side, win_score.
  destruct (_apply_move board move 1) as [[[nb i] c]|]; [|done].
  destruct (_check_win nb 1 _ _).
  - by rewrite max_update.
  - destruct (frec nb) as [[e o]|]; [|done]. by rewrite max_update.
Qed.

Lemma full_min_loop_cons move rest T best :
  full_min_loop frec board valid (move :: rest) T best
  = do e <- move_value frec board false move;
    full_min_loop frec board valid rest (Score.min T e)
      (if Score.lt e T then Some move else best).
Proof.
  cbn [full_min_loop]. unfold move_value, side, win_score.
  destruct (_apply_move board move (-1)) as [[[nb i] c]|]; [|done].
  destruct (_check_win nb (-1) _ _).
  - by rewrite min_update.
  - destruct (frec nb) as [[e o]|]; [|done]. by rewrite min_update.
Qed.

(** The unpruned maximizing loop keeps the first move that reaches the
    final score. *)
Lemma full_max_loop_first moves T best t m :
  full_max_loop frec board valid moves T best = Some (t, m) →
  (t = T ∧ finish valid T best = Some (T, m)
   ∧ ∀ m', In m' moves →
       ∃ v, move_value frec board true m' = Some v ∧ v ⪯ T)
  ∨ (∃ c pre post, m = Some c ∧ moves = pre ++ c :: post
     ∧ move_value frec board true c = Some t ∧ T ≺ t
     ∧ (∀ m', In m' pre →
          ∃ v, move_value frec board true m' = Some v ∧ v ≺ t)
     ∧ (∀ m', In m' post →
          ∃ v, move_value frec board true m' = Some v ∧ v ⪯ t)).
Proof.
  revert T best. induction moves as [|move rest IH]; intros T best Hrun.
  { left. simpl in Hrun. destruct (finish_inv _ _ _ _ _ Hrun) as [-> _].
    by repeat split. }
  rewrite full_max_loop_cons in Hrun.
  destruct (move_value frec board true move) as [e|] eqn:He; [|done].
  apply IH in Hrun as [(-> & Hfin & Hall)|
    (c & pre & post & -> & -> & Hc & Hlt & Hpre & Hpost)].
  - destruct (Score.gt e T) eqn:Hgt.
    + right. rewrite (max_gt _ _ Hgt) in *.
      destruct (finish_inv _ _ _ _ _ Hfin) as (_ & c & -> & [[= <-]|[? _]]);
        [|done].
      exists move, [], rest. by repeat split.
    + left. rewrite (max_not_gt _ _ Hgt) in *.
      split; [done|]. split; [done|]. intros m' [<-|Hin]; [|by apply Hall].
      exists e. split; [done|by apply gt_false_le].
  - right. exists c, (move :: pre), post.
    split; [done|]. split; [done|]. split; [done|].
    split; [eapply le_lt_trans; [apply le_max_l|done]|].
    split; [|done]. intros m' [<-|Hin]; [|by apply Hpre].
    exists e. split; [done|].
    eapply le_lt_trans; [|exact Hlt]. clear. score_cases.
Qed.

Lemma full_min_loop_first moves T best t m :
  full_min_loop frec board valid moves T best = Some (t, m) →
  (t = T ∧ finish valid T best = Some (T, m)
   ∧ ∀ m', In m' moves →
       ∃ v, move_value frec board false m' = Some v ∧ T ⪯ v)
  ∨ (∃ c pre post, m = Some c ∧ moves = pre ++ c :: post
     ∧ move_value frec board false c = Some t ∧ t ≺ T
     ∧ (∀ m', In m' pre →
          ∃ v, move_value frec board false m' = Some v ∧ t ≺ v)
     ∧ (∀ m', In m' post →
          ∃ v, move_value frec board false m' = Some v ∧ t ⪯ v)).
Proof.
  revert T best. induction moves as [|move rest IH]; intros T best Hrun.
  { left. simpl in Hrun. destruct (finish_inv _ _ _ _ _ Hrun) as [-> _].
    by repeat split. }
  rewrite full_min_loop_cons in Hrun.
  destruct (move_value frec board false move) as [e|] eqn:He; [|done].
  apply IH in Hrun as [(-> & Hfin & Hall)|
    (c & pre & post & -> & -> & Hc & Hlt & Hpre & Hpost)].
  - destruct (Score.lt e T) eqn:Hgt.
    + right. rewrite (min_lt _ _ Hgt) in *.
      destruct (finish_inv _ _ _ _ _ Hfin) as (_ & c & -> & [[= <-]|[? _]]);
        [|done].
      exists move, [], rest. by repeat split.
    + left. rewrite (min_not_lt _ _ Hgt) in *.
      split; [done|]. split; [done|]. intros m' [<-|Hin]; [|by apply Hall].
      exists e. split; [done|by apply gt_false_le].
  - right. exists c, (move :: pre), post.
    split; [done|]. split; [done|]. split; [done|].
    split; [eapply lt_le_trans; [done|apply min_le_l]|].
    split; [|done]. intros m' [<-|Hin]; [|by apply Hpre].
    exists e. split; [done|].
    eapply lt_le_trans; [exact Hlt|]. clear. score_cases.
Qed.

End TieBreak.

Section Strictness.

Variable rec : Board → Score → Score → option Outcome.
Variable board : Board.
Variable valid : list nat.

Lemma le_max_r x y : y ⪯ Score.max x y.
Proof. score_cases. Qed.

Lemma min_le_r x y : Score.min x y ⪯ y.
Proof. score_cases. Qed.

Lemma le_max_trans x y z : x ⪯ y → x ⪯ Score.max y z.
Proof. intros ?. score_cases. Qed.

Lemma min_le_trans x y z : y ⪯ x → Score.min y z ⪯ x.
Proof. intros ?. score_cases. Qed.

(** In the maximizing loop the best move is replaced only by a move
    whose score is strictly greater. *)
Lemma max_loop_keeps_best moves M b0 a beta r m :
  M ⪯ a → a ≺ beta →
  max_loop rec board valid moves M (Some b0) a beta = Some (r, Some m) →
  (m = b0 ∧ r = M) ∨ (In m moves ∧ M ≺ r).
Proof.
  revert M b0 a. induction moves as [|move rest IH];
    intros M b0 a HM Hopen Hrun.
  { simpl in Hrun. injection Hrun as <- <-. by left. }
  cbn [max_loop] in Hrun.
  destruct (_apply_move board move 1) as [[[nb i] c]|]; [|done].
  destruct (_check_win nb 1 _ _).
  { injection Hrun as <- <-. right. split; [by left|].
    eapply le_lt_trans; [exact HM|].
    eapply lt_le_trans; [exact Hopen|apply le_PosInf]. }
  destruct (rec nb a beta) as [[e o]|]; [|done].
  destruct (Score.gt e M) eqn:Hgt.
  - destruct (Score.le beta (Score.max a e)) eqn:Hbreak.
    + injection Hrun as <- <-. right. split; [by left|done].
    + apply IH in Hrun as [[-> ->]|[Hin Hlt]];
        [right; split; [by left|done]
        |right; split; [by right|]
        |apply le_max_r|by apply le_false_lt].
      eapply lt_le_trans; [exact Hgt|by apply lt_le].
  - destruct (Score.le beta (Score.max a e)) eqn:Hbreak.
    + injection Hrun as <- <-. by left.
    + apply IH in Hrun as [[-> ->]|[Hin Hlt]];
        [by left|right; split; [by right|done]
        |by apply le_max_trans|by apply le_false_lt].
Qed.

(** In the minimizing loop the best move is replaced only by a move
    whose score is strictly smaller. *)
Lemma min_loop_keeps_best moves M b0 alpha b r m :
  b ⪯ M → alpha ≺ b →
  min_loop rec board valid moves M (Some b0) alpha b = Some (r, Some m) →
  (m = b0 ∧ r = M) ∨ (In m moves ∧ r ≺ M).
Proof.
  revert M b0 b. induction moves as [|move rest IH];
    intros M b0 b HM Hopen Hrun.
  { simpl in Hrun. injection Hrun as <- <-. by left. }
  cbn [min_loop] in Hrun.
  destruct (_apply_move board move (-1)) as [[[nb i] c]|]; [|done].
  destruct (_check_win nb (-1) _ _).
  { injection Hrun as <- <-. right. split; [by left|].
    eapply lt_le_trans; [|exact HM].
    eapply le_lt_trans; [apply NegInf_le|exact Hopen]. }
  destruct (rec nb alpha b) as [[e o]|]; [|done].
  destruct (Score.lt e M) eqn:Hlt.
  - destruct (Score.le (Score.min b e) alpha) eqn:Hbreak.
    + injection Hrun as <- <-. right. split; [by left|done].
    + apply IH in Hrun as [[-> ->]|[Hin Hlt']];
        [right; split; [by left|done]
        |right; split; [by right|]
        |apply min_le_r|by apply le_false_lt].
      eapply le_lt_trans; [by apply lt_le|exact Hlt].
  - destruct (Score.le (Score.min b e) alpha) eqn:Hbreak.
    + injection Hrun as <- <-. by left.
    + apply IH in Hrun as [[-> ->]|[Hin Hlt']];
        [by left|right; split; [by right|done]
        |by apply min_le_trans|by apply le_false_lt].
Qed.

End Strictness.

Section RootChoice.

Variable self : MinimaxPlayer.

Lemma worse_not_win maximizing score :
  worse maximizing (win_score maximizing) score → False.
Proof. destruct maximizing, score; done. Qed.

Lemma no_better_win maximizing score :
  no_better maximizing (win_score maximizing) score →
  score = win_score maximizing.
Proof. destruct maximizing, score; done. Qed.

(** The move that the search returns from the root splits the legal
    moves: those before it are strictly worse, those after it are no
    better. *)
Lemma root_choice board depth maximizing :
  valid_moves board ≠ [] →
  ∃ score m pre post,
    _minimax self board (S depth) maximizing NegInf PosInf
      = Some (score, Some m)
    ∧ valid_moves board = pre ++ m :: post
    ∧ move_value (λ b, full_minimax self b depth (negb maximizing))
        board maximizing m = Some score
    ∧ (∀ m', In m' pre → ∃ v,
         move_value (λ b, full_minimax self b depth (negb maximizing))
           board maximizing m' = Some v ∧ worse maximizing v score)
    ∧ (∀ m', In m' post → ∃ v,
         move_value (λ b, full_minimax self b depth (negb maximizing))
           board maximizing m' = Some v ∧ no_better maximizing v score).
Proof.
  intros Hne.
  destruct (minimax_total self board (S depth) maximizing NegInf PosInf)
    as (score & best & Hrun & _ & Hmove).
  destruct (Hmove Hne) as (m & -> & Hin).
  exists score, m. rewrite Hrun.
  rewrite minimax_root in Hrun. cbn [full_minimax] in Hrun.
  destruct (valid_moves board) as [|move0 rest0] eqn:Hvalid; [done|].
  rewrite <- Hvalid in *.
  destruct maximizing.
  - apply full_max_loop_first in Hrun as [(-> & Hfin & Hall)|
      (c & pre & post & [= <-] & Hsplit & Hm & _ & Hpre & Hpost)].
    + apply finish_inv in Hfin as (_ & c & [= <-] & [?|[_ Hhead]]); [done|].
      rewrite Hvalid in Hhead. injection Hhead as ->.
      exists [], rest0. split; [done|]. split; [by rewrite Hvalid|].
      destruct (Hall m Hin) as (v & Hv & ->%le_NegInf).
      split; [done|]. split; [done|].
      intros m' Hm'. apply Hall. rewrite Hvalid. by right.
    + exists pre, post. by repeat split.
  - apply full_min_loop_first in Hrun as [(-> & Hfin & Hall)|
      (c & pre & post & [= <-] & Hsplit & Hm & _ & Hpre & Hpost)].
    + apply finish_inv in Hfin as (_ & c & [= <-] & [?|[_ Hhead]]); [done|].
      rewrite Hvalid in Hhead. injection Hhead as ->.
      exists [], rest0. split; [done|]. split; [by rewrite Hvalid|].
      destruct (Hall m Hin) as (v & Hv & ->%PosInf_le).
      split; [done|]. split; [done|].
      intros m' Hm'. apply Hall. rewrite Hvalid. by right.
    + exists pre, post. by repeat split.
Qed.

Lemma move_value_win frec board maximizing move :
  In move (valid_moves board) →
  immediate_win board (side maximizing) move = true →
  move_value frec board maximizing move = Some (win_score maximizing).
Proof.
  intros Hin. unfold immediate_win, move_value.
  destruct (apply_move_valid board move (side maximizing) Hin)
    as (nb & i & ->).
  by intros ->.
Qed.

Lemma move_value_leaf board maximizing maximizing' move v :
  move_value (λ b, full_minimax self b 0 maximizing') board maximizing move
    = Some v →
  v = win_score maximizing ∨ ∃ z, v = Fin z.
Proof.
  unfold move_value.
  destruct (_apply_move board move (side maximizing)) as [[[nb i] c]|];
    [|done].
  destruct (_check_win nb _ _ _); [intros [= <-]; by left|].
  simpl. destruct (evaluate_total self nb) as [z ->].
  intros [= <-]. right. eauto.
Qed.

(** A search of depth 0 or 1 never reports a win of the side that moved
    into the position. *)
Lemma shallow_no_forced_win board depth maximizing score best :
  (depth ≤ 1)%nat →
  full_minimax self board depth maximizing = Some (score, best) →
  score ≠ win_score (negb maximizing).
Proof.
  intros Hdepth Hrun.
  destruct depth as [|[|depth]]; [| |lia].
  { simpl in Hrun. destruct (evaluate_total self board) as [z Hz].
    rewrite Hz in Hrun. injection Hrun as <- _. by destruct maximizing. }
  change (full_minimax self board 1 maximizing) with
    (match valid_moves board with
     | [] => do s <- evaluate self board; Some (s, head (valid_moves board))
     | _ :: _ =>
         if maximizing
         then full_max_loop (λ b, full_minimax self b 0 false) board
                (valid_moves board) (valid_moves board) NegInf None
         else full_min_loop (λ b, full_minimax self b 0 true) board
                (valid_moves board) (valid_moves board) PosInf None
     end) in Hrun.
  destruct (valid_moves board) as [|move0 rest0] eqn:Hvalid.
  { destruct (evaluate_total self board) as [z Hz]. rewrite Hz in Hrun.
    injection Hrun as <- _. by destruct maximizing. }
  destruct maximizing.
  - apply full_max_loop_first in Hrun as [(-> & _ & Hall)|
      (c & pre & post & _ & _ & _ & Hlt & _)];
      [|intros ->; simpl in Hlt; done].
    destruct (Hall move0 ltac:(by left)) as (v & Hv & Hle%le_NegInf).
    subst v. apply move_value_leaf in Hv as [Hv|[z Hv]]; done.
  - apply full_min_loop_first in Hrun as [(-> & _ & Hall)|
      (c & pre & post & _ & _ & _ & Hlt & _)];
      [|intros ->; simpl in Hlt; done].
    destruct (Hall move0 ltac:(by left)) as (v & Hv & Hle%PosInf_le).
    subst v. apply move_value_leaf in Hv as [Hv|[z Hv]]; done.
Qed.

End RootChoice.

(** C7. The legal moves are enumerated in ascending column order; the
    column that the search returns from the root has the best value among
    the legal columns, every lower legal column being strictly worse (among
    columns of equal best value the lowest is returned); and within either
    loop the best move is replaced only by a later move whose score is
    strictly better, never by one that is equal or worse. *)
Theorem search_tie_break (self : MinimaxPlayer) (board : Board)
  (depth : nat) (maximizing : bool) :
  valid_moves board ≠ [] →
  StronglySorted lt (valid_moves board)
  ∧ (∀ c, In c (valid_moves board) ↔ (c < 7)%nat ∧ get board 0 c = 0)
  ∧ (∃ score m,
       _minimax self board (S depth) maximizing NegInf PosInf
         = Some (score, Some m)
       ∧ In m (valid_moves board)
       ∧ move_value (λ b, full_minimax self b depth (negb maximizing))
           board maximizing m = Some score
       ∧ ∀ m', In m' (valid_moves board) →
           ∃ v, move_value (λ b, full_minimax self b depth (negb maximizing))
                  board maximizing m' = Some v
             ∧ no_better maximizing v score
             ∧ ((m' < m)%nat → worse maximizing v score))
  ∧ (∀ rec valid moves max_eval best_move alpha beta score move,
       max_eval ⪯ alpha → alpha ≺ beta →
       max_loop rec board valid moves max_eval (Some best_move) alpha beta
         = Some (score, Some move) →
       (move = best_move ∧ score = max_eval)
       ∨ (In move moves ∧ max_eval ≺ score))
  ∧ (∀ rec valid moves min_eval best_move alpha beta score move,
       beta ⪯ min_eval → alpha ≺ beta →
       min_loop rec board valid moves min_eval (Some best_move) alpha beta
         = Some (score, Some move) →
       (move = best_move ∧ score = min_eval)
       ∨ (In move moves ∧ score ≺ min_eval)).
Proof.
  intros Hne. split; [apply valid_moves_sorted|].
  split; [apply elem_of_valid_moves|]. split.
  - destruct (root_choice self board depth maximizing Hne)
      as (score & m & pre & post & Hrun & Hsplit & Hm & Hpre & Hpost).
    pose proof (valid_moves_sorted board) as Hsorted.
    rewrite Hsplit in *.
    exists score, m. split; [done|].
    split; [apply in_or_app; right; by left|]. split; [done|].
    intros m' Hin.
    destruct (in_app_or _ _ _ Hin) as [Hin'|[<-|Hin']].
    + destruct (Hpre m' Hin') as (v & Hv & Hworse). exists v.
      split; [done|]. split; [|done].
      destruct maximizing; by apply lt_le.
    + exists score. split; [done|]. split; [|lia].
      destruct maximizing; apply le_refl.
    + destruct (Hpost m' Hin') as (v & Hv & Hle). exists v.
      split; [done|]. split; [done|]. intros Hlt.
      pose proof (sorted_after pre post m m' Hsorted ltac:(by right)). lia.
  - split.
    + intros rec valid moves max_eval best_move alpha beta score move.
      apply max_loop_keeps_best.
    + intros rec valid moves min_eval best_move alpha beta score move.
      apply min_loop_keeps_best.
Qed.

Lemma search_tie_break_witness :
  ∃ score m,
    _minimax (player_of 2 true) empty_board 2 true NegInf PosInf
      = Some (score, Some m)
    ∧ In m (valid_moves empty_board)
    ∧ move_value (λ b, full_minimax (player_of 2 true) b 1 false)
        empty_board true m = Some score
    ∧ ∀ m', In m' (valid_moves empty_board) →
        ∃ v, move_value (λ b, full_minimax (player_of 2 true) b 1 false)
               empty_board true m' = Some v
          ∧ no_better true v score
          ∧ ((m' < m)%nat → worse true v score).
Proof.
  assert (valid_moves empty_board ≠ []) as Hne by (vm_compute; discriminate).
  exact (proj1 (proj2 (proj2
           (search_tie_break (player_of 2 true) empty_board 1 true Hne)))).
Defined.

(** C2, as stated, fails: on [two_threats] columns 5 and 6 each complete
    four in a row for the side to move, yet the search of depth 3 returns
    column 0, which does not: no column that completes four in a row is
    returned. *)
Lemma immediate_win_counterexample :
  valid_moves two_threats ≠ []
  ∧ In 5%nat (valid_moves two_threats)
  ∧ immediate_win two_threats 1 5 = true
  ∧ _minimax (player_of 3 true) two_threats 3 true NegInf PosInf
    = Some (PosInf, Some 0%nat)
  ∧ ¬ ∃ m, _minimax (player_of 3 true) two_threats 3 true NegInf PosInf
           = Some (PosInf, Some m)
         ∧ immediate_win two_threats 1 m = true.
Proof.
  assert (_minimax (player_of 3 true) two_threats 3 true NegInf PosInf
          = Some (PosInf, Some 0%nat)) as Hrun by (vm_compute; reflexivity).
  split; [vm_compute; discriminate|].
  split; [apply elem_of_valid_moves; split; [lia|reflexivity]|].
  split; [vm_compute; reflexivity|].
  split; [exact Hrun|].
  intros (m & Hm & Hwin). rewrite Hrun in Hm. injection Hm as <-.
  vm_compute in Hwin. discriminate.
Qed.

(** C2, amended. If some legal column completes four in a row for the side
    to move, the search of any depth >= 1 from the root window returns the
    score +infinity for the maximizing side (-infinity for the minimizing
    side) and a legal column that is not higher than that column and that
    either completes four in a row itself or leads to a position whose own
    search returns that same score (a forced win met first in the
    enumeration); at depth 1 and 2 the returned column always completes
    four in a row. *)
Theorem immediate_win_found (self : MinimaxPlayer) (board : Board)
  (depth : nat) (maximizing : bool) (w : nat) :
  In w (valid_moves board) →
  immediate_win board (side maximizing) w = true →
  ∃ m,
    _minimax self board (S depth) maximizing NegInf PosInf
      = Some (win_score maximizing, Some m)
    ∧ In m (valid_moves board) ∧ (m ≤ w)%nat
    ∧ (immediate_win board (side maximizing) m = true
       ∨ ∃ new_board row col best,
           _apply_move board m (side maximizing) = Some (new_board, row, col)
           ∧ _minimax self new_board depth (negb maximizing) NegInf PosInf
             = Some (win_score maximizing, best))
    ∧ ((depth ≤ 1)%nat → immediate_win board (side maximizing) m = true).
Proof.
  intros Hw Hwin.
  assert (valid_moves board ≠ []) as Hne by (by destruct (valid_moves board)).
  destruct (root_choice self board depth maximizing Hne)
    as (score & m & pre & post & Hrun & Hsplit & Hm & Hpre & Hpost).
  pose proof (valid_moves_sorted board) as Hsorted.
  pose proof (move_value_win
                (λ b, full_minimax self b depth (negb maximizing))
                board maximizing w Hw Hwin) as Hvalue.
  rewrite Hsplit in Hw, Hsorted.
  assert (In w (m :: post) ∧ score = win_score maximizing) as [Hafter ->].
  { destruct (in_app_or _ _ _ Hw) as [Hin|[<-|Hin]].
    - destruct (Hpre w Hin) as (v & Hv & Hworse).
      rewrite Hvalue in Hv. injection Hv as <-.
      by apply worse_not_win in Hworse.
    - split; [by left|]. rewrite Hvalue in Hm. by injection Hm.
    - split; [by right|].
      destruct (Hpost w Hin) as (v & Hv & Hle).
      rewrite Hvalue in Hv. injection Hv as <-.
      by apply no_better_win. }
  exists m. split; [done|].
  split; [rewrite Hsplit; apply in_or_app; right; by left|].
  split; [by eapply sorted_after|].
  unfold move_value in Hm. unfold immediate_win.
  destruct (_apply_move board m (side maximizing)) as [[[nb i] c]|]; [|done].
  destruct (_check_win nb (side maximizing) _ _); [by split; [left|]|].
  destruct (full_minimax self nb depth (negb maximizing))
    as [[e best]|] eqn:Hchild; [|done].
  injection Hm as ->. split.
  - right. exists nb, i, c, best. split; [done|]. by rewrite minimax_root.
  - intros Hdepth. exfalso.
    apply (shallow_no_forced_win self nb depth (negb maximizing) _ best
             Hdepth Hchild).
    by rewrite negb_involutive.
Qed.

Lemma immediate_win_found_witness :
  ∃ m,
    _minimax (player_of 3 true) two_threats 3 true NegInf PosInf
      = Some (win_score true, Some m)
    ∧ In m (valid_moves two_threats) ∧ (m ≤ 5)%nat
    ∧ (immediate_win two_threats (side true) m = true
       ∨ ∃ new_board row col best,
           _apply_move two_threats m (side true) = Some (new_board, row, col)
           ∧ _minimax (player_of 3 true) new_board 2 (negb true) NegInf PosInf
             = Some (win_score true, best))
    ∧ ((2 ≤ 1)%nat → immediate_win two_threats (side true) m = true).
Proof.
  apply (immediate_win_found (player_of 3 true) two_threats 2 true 5%nat).
  - apply elem_of_valid_moves. split; [lia|reflexivity].
  - vm_compute. reflexivity.
Defined.

(** ** The scenarios of the specification, run on the model *)

Example empty_board_prefers_centre :
  play (player_of 2 true) (Single empty_board) = Some (Move (Some 3%nat)).
Proof. vm_compute. reflexivity. Qed.

Example one_move_win_taken :
  play (player_of 1 true) (Single three_in_row) = Some (Move (Some 3%nat))
  ∧ play (player_of 3 true) (Single three_in_row) = Some (Move (Some 3%nat))
  ∧ play (player_of 2 false) (Single three_in_row) = Some (Move (Some 3%nat)).
Proof. split; [|split]; vm_compute; reflexivity. Qed.

Example batch_of_observations :
  play (player_of 2 true) (Batch [empty_board; three_in_row])
  = Some (Moves [Some 3%nat; Some 3%nat]).
Proof. vm_compute. reflexivity. Qed.

(** ** The configuration that [play] reads *)

Section Configuration.

Variables self self' : MinimaxPlayer.
Hypothesis same_evaluator : heuristic self = heuristic self'.

Lemma evaluate_ext board : evaluate self board = evaluate self' board.
Proof. unfold evaluate. by rewrite same_evaluator. Qed.

Lemma max_loop_ext rec rec' board valid moves max_eval best alpha beta :
  (∀ b x y, rec b x y = rec' b x y) →
  max_loop rec board valid moves max_eval best alpha beta
  = max_loop rec' board valid moves max_eval best alpha beta.
Proof.
  intros Hrec. revert max_eval best alpha.
  induction moves as [|move rest IH]; intros max_eval best alpha; [done|].
  cbn [max_loop].
  destruct (_apply_move board move 1) as [[[nb i] c]|]; [|done].
  destruct (_check_win nb 1 _ _); [done|].
  rewrite Hrec. destruct (rec' nb alpha beta) as [[e o]|]; [|done].
  destruct (Score.gt e max_eval);
    destruct (Score.le beta (Score.max alpha e)); auto.
Qed.

Lemma min_loop_ext rec rec' board valid moves min_eval best alpha beta :
  (∀ b x y, rec b x y = rec' b x y) →
  min_loop rec board valid moves min_eval best alpha beta
  = min_loop rec' board valid moves min_eval best alpha beta.
Proof.
  intros Hrec. revert min_eval best beta.
  induction moves as [|move rest IH]; intros min_eval best beta; [done|].
  cbn [min_loop].
  destruct (_apply_move board move (-1)) as [[[nb i] c]|]; [|done].
  destruct (_check_win nb (-1) _ _); [done|].
  rewrite Hrec. destruct (rec' nb alpha beta) as [[e o]|]; [|done].
  destruct (Score.lt e min_eval);
    destruct (Score.le (Score.min beta e) alpha); auto.
Qed.

Lemma minimax_ext board depth maximizing alpha beta :
  _minimax self board depth maximizing alpha beta
  = _minimax self' board depth maximizing alpha beta.
Proof.
  revert board maximizing alpha beta.
  induction depth as [|depth IH]; intros board maximizing alpha beta.
  - simpl. by rewrite evaluate_ext.
  - cbn [_minimax]. rewrite evaluate_ext.
    destruct (valid_moves board) as [|move0 rest0]; [done|].
    destruct maximizing.
    + apply max_loop_ext. intros. apply IH.
    + apply min_loop_ext. intros. apply IH.
Qed.

Lemma comprehension_ext {A B : Type} (f g : A → option B) (l : list A) :
  (∀ x, f x = g x) → comprehension f l = comprehension g l.
Proof.
  intros Hfg. induction l as [|x l IH]; [done|]. simpl.
  by rewrite Hfg, IH.
Qed.

End Configuration.

(** The answer of [play] does not depend on the name of the player: two
    players that agree on depth and evaluator answer alike. *)
Lemma play_ignores_name (self self' : MinimaxPlayer) (obs : Observation) :
  max_depth self = max_depth self' →
  heuristic self = heuristic self' →
  play self obs = play self' obs.
Proof.
  intros Hdepth Heval.
  assert (∀ o, _minimax_decision self o = _minimax_decision self' o) as Hdec.
  { intros o. unfold _minimax_decision.
    by rewrite Hdepth, (minimax_ext self self' Heval). }
  destruct obs as [o|os]; simpl.
  - by rewrite Hdec.
  - by rewrite (comprehension_ext _ _ os Hdec).
Qed.

(** * Further properties *)

(** ** What the win check finds *)

Section WinShape.

(** The run-length scan over the seven steps finds a run of four exactly
    when one of the four windows of four consecutive steps is full. *)
Lemma scan_line_windows (f : Z → bool) :
  scan_line f steps 0
  = (f (-3) && f (-2) && f (-1) && f 0)
    || (f (-2) && f (-1) && f 0 && f 1)
    || (f (-1) && f 0 && f 1 && f 2)
    || (f 0 && f 1 && f 2 && f 3).
Proof.
  cbv [steps scan_line Nat.eqb].
  destruct (f (-3)), (f (-2)), (f (-1)), (f 0), (f 1), (f 2), (f 3);
    reflexivity.
Qed.

Lemma scan_line_run (f : Z → bool) :
  scan_line f steps 0 = true
  ↔ ∃ k, -3 <= k <= 0 ∧ ∀ j, 0 <= j <= 3 → f (k + j) = true.
Proof.
  rewrite scan_line_windows. split.
  - rewrite !orb_true_iff, !andb_true_iff.
    intros [[[H|H]|H]|H]; destruct H as [[[H0 H1] H2] H3];
      [exists (-3)|exists (-2)|exists (-1)|exists 0];
      (split; [lia|]); intros j Hj;
      assert (j = 0 ∨ j = 1 ∨ j = 2 ∨ j = 3) as [->|[->|[->| ->]]] by lia;
      assumption.
  - intros (k & Hk & Hrun).
    assert (k = -3 ∨ k = -2 ∨ k = -1 ∨ k = 0) as [->|[->|[->| ->]]] by lia;
      pose proof (Hrun 0 ltac:(lia)) as H0;
      pose proof (Hrun 1 ltac:(lia)) as H1;
      pose proof (Hrun 2 ltac:(lia)) as H2;
      pose proof (Hrun 3 ltac:(lia)) as H3;
      cbv in H0, H1, H2, H3; rewrite H0, H1, H2, H3; simpl;
      rewrite ?orb_true_r; reflexivity.
Qed.

Lemma check_win_iff_four board player row col :
  _check_win board player row col = true
  ↔ four_through board player row col.
Proof.
  unfold _check_win, four_through. rewrite existsb_exists. split.
  - intros ([dr dc] & Hdir & Hscan).
    apply scan_line_run in Hscan as (k & Hk & Hrun).
    exists dr, dc, k. split; [done|]. split; [done|].
    intros j Hj. by apply Hrun.
  - intros (dr & dc & k & Hdir & Hk & Hrun).
    exists (dr, dc). split; [done|].
    apply scan_line_run. exists k. split; [done|].
    intros j Hj. by apply Hrun.
Qed.

End WinShape.

(** X1. [_check_win] answers [True] exactly when four cells in a row, on
    the board and all holding the player's value, lie on one of the four
    lines through the anchor and include the anchor. *)
Theorem check_win_four_through (board : Board) (player : Z) (row col : Z) :
  _check_win board player row col = true
  ↔ four_through board player row col.
Proof. apply check_win_iff_four. Qed.

(** X2. A win is only ever reported for the player who holds the anchor:
    when [_check_win] answers [True] the anchor is on the board and holds
    the player's value, and the check at the same anchor for any other
    value answers [False]. *)
Theorem check_win_anchor_owner (board : Board) (player : Z) (row col : Z) :
  _check_win board player row col = true →
  0 <= row < 6 ∧ 0 <= col < 7
  ∧ get board (Z.to_nat row) (Z.to_nat col) = player
  ∧ ∀ other, other ≠ player → _check_win board other row col = false.
Proof.
  intros Hwin.
  assert (owned board player row col = true) as Howned.
  { destruct (owned board player row col) eqn:E; [done|].
    by rewrite (check_win_anchor _ _ _ _ E) in Hwin. }
  unfold owned in Howned.
  rewrite !andb_true_iff, !Z.leb_le, !Z.ltb_lt, Z.eqb_eq in Howned.
  destruct Howned as [[[[? ?] ?] ?] Hget].
  split; [lia|]. split; [lia|]. split; [done|].
  intros other Hother. apply check_win_anchor. unfold owned.
  rewrite Hget. rewrite (proj2 (Z.eqb_neq player other)) by congruence.
  apply andb_false_r.
Qed.

Lemma check_win_anchor_owner_witness :
  0 <= 5 < 6 ∧ 0 <= 2 < 7
  ∧ get won_row (Z.to_nat 5) (Z.to_nat 2) = 1
  ∧ ∀ other, other ≠ 1 → _check_win won_row other 5 2 = false.
Proof.
  apply (check_win_anchor_owner won_row 1 5 2). vm_compute. reflexivity.
Defined.

(** ** Pieces stack *)

Section Stacking.

Lemma gravity_chain board c (j i : nat) :
  gravity board → (c < 7)%nat → (j ≤ i)%nat → (i < 6)%nat →
  get board j c ≠ 0 → get board i c ≠ 0.
Proof.
  intros Hgrav Hc Hji Hi Hj. induction i as [|i IH].
  - by replace j with 0%nat in Hj by lia.
  - destruct (decide (j = S i)) as [->|Hne]; [done|].
    apply Hgrav; [lia|done|]. apply IH; lia.
Qed.

(** The landing row is the only empty cell of the column with nothing but
    pieces beneath it. *)
Lemma apply_move_lands board move player i :
  (i < 6)%nat → get board i move = 0 →
  (∀ j, (i < j < 6)%nat → get board j move ≠ 0) →
  _apply_move board move player
  = Some (set_cell board i move player, i, move).
Proof.
  intros Hi Hempty Hbelow.
  destruct (apply_move_empty board move player i Hi Hempty)
    as (nb & i' & Happly).
  pose proof (apply_move_Some _ _ _ _ _ _ Happly)
    as (_ & Hi' & Hempty' & -> & Hbelow').
  assert (i' = i) as ->; [|done].
  destruct (Nat.lt_trichotomy i i') as [Hlt|[->|Hlt]]; [|done|].
  - by specialize (Hbelow i' ltac:(lia)).
  - by specialize (Hbelow' i ltac:(lia)).
Qed.

End Stacking.

(** X3. On a 6x7 board that satisfies the gravity invariant, a piece
    dropped in a column lands on top of the column's stack: every cell of
    the column above the landing row is empty and every cell beneath it is
    occupied; a second piece dropped in the same column lands on the row
    directly above, or is refused when the first one landed on the top
    row. *)
Theorem apply_move_stacks (board board1 : Board) (c i : nat)
  (player next : Z) :
  wf board → gravity board → (c < 7)%nat → player ≠ 0 →
  _apply_move board c player = Some (board1, i, c) →
  (∀ j, (j < i)%nat → get board j c = 0)
  ∧ (∀ j, (i < j < 6)%nat → get board j c ≠ 0)
  ∧ match i with
    | O => _apply_move board1 c next = None
    | S i' =>
        _apply_move board1 c next = Some (set_cell board1 i' c next, i', c)
    end.
Proof.
  intros Hwf Hgrav Hc Hplayer Happly.
  pose proof (apply_move_Some _ _ _ _ _ _ Happly)
    as (_ & Hi & Hempty & -> & Hbelow).
  assert (∀ j, (j < i)%nat → get board j c = 0) as Habove.
  { intros j Hj. destruct (decide (get board j c = 0)) as [|Hne]; [done|].
    exfalso. by apply (gravity_chain board c j i Hgrav Hc ltac:(lia) Hi Hne). }
  split; [done|]. split; [done|].
  assert (∀ j, (i ≤ j < 6)%nat → get (set_cell board i c player) j c ≠ 0)
    as Hfilled.
  { intros j Hj. destruct (decide (j = i)) as [->|Hne].
    - by rewrite get_set_cell_eq.
    - rewrite get_set_cell_ne by congruence. apply Hbelow. lia. }
  destruct i as [|i'].
  - apply apply_move_None. intros r Hr. apply Hfilled. lia.
  - apply apply_move_lands; [lia| |intros j Hj; apply Hfilled; lia].
    rewrite get_set_cell_ne by (intros [= ?]; lia). apply Habove. lia.
Qed.

Lemma apply_move_stacks_witness :
  (∀ j, (j < 5)%nat → get open_pair j 4%nat = 0)
  ∧ (∀ j, (5 < j < 6)%nat → get open_pair j 4%nat ≠ 0)
  ∧ _apply_move (set_cell open_pair 5 4 1) 4%nat (-1)
    = Some (set_cell (set_cell open_pair 5 4 1) 4 4 (-1), 4%nat, 4%nat).
Proof.
  apply (apply_move_stacks open_pair (set_cell open_pair 5 4 1) 4 5 1 (-1)).
  - apply wfb_wf. reflexivity.
  - apply gravityb_gravity. reflexivity.
  - lia.
  - lia.
  - vm_compute. reflexivity.
Defined.

(** X4. After a piece is dropped, the legal moves are those of the board
    before, in the same order, less the column played when the piece
    landed on its top row: a column never becomes legal again and no other
    column is affected. *)
Theorem valid_moves_after_move (board board1 : Board) (c i : nat)
  (player : Z) :
  wf board → player ≠ 0 →
  _apply_move board c player = Some (board1, i, c) →
  valid_moves board1
  = List.filter (λ m, negb ((m =? c)%nat && (i =? 0)%nat))
      (valid_moves board).
Proof.
  intros Hwf Hplayer Happly.
  pose proof (apply_move_Some _ _ _ _ _ _ Happly)
    as (_ & Hi & Hempty & -> & _).
  unfold valid_moves. rewrite filter_filter_andb.
  apply filter_ext_in. intros m Hm%in_seq.
  destruct (Nat.eqb_spec m c) as [->|Hmc]; [destruct (Nat.eqb_spec i 0) as [->|Hi0]|].
  - rewrite get_set_cell_eq by (done || lia). rewrite Hempty. simpl.
    by apply Z.eqb_neq.
  - rewrite get_set_cell_ne by congruence. simpl. by rewrite andb_true_r.
  - rewrite get_set_cell_ne by congruence. simpl. by rewrite andb_true_r.
Qed.

Lemma valid_moves_after_move_witness :
  valid_moves (set_cell open_pair 5 4 1)
  = List.filter (λ m, negb ((m =? 4)%nat && (5 =? 0)%nat))
      (valid_moves open_pair).
Proof.
  apply (valid_moves_after_move open_pair (set_cell open_pair 5 4 1) 4 5 1).
  - apply wfb_wf. reflexivity.
  - lia.
  - vm_compute. reflexivity.
Defined.

(** ** Batches of observations *)

(** X5. [play] on a list of observations never fails and answers with one
    move per observation, in the order of the list, each the move that
    [play] gives for that observation alone. *)
Theorem play_batch (self : MinimaxPlayer) (obs : list Board) :
  ∃ moves,
    play self (Batch obs) = Some (Moves moves)
    ∧ length moves = length obs
    ∧ ∀ (i : nat) (o : Board), obs !! i = Some o →
        ∃ move, moves !! i = Some move
          ∧ play self (Single o) = Some (Move move).
Proof.
  unfold play. induction obs as [|o rest IH].
  - exists []. split; [done|]. split; [done|]. intros i o Hi. done.
  - destruct IH as (moves & Hrest & Hlen & Heach).
    destruct (minimax_total self o (max_depth self) true NegInf PosInf)
      as (score & move & Hrun & _).
    assert (_minimax_decision self o = Some move) as Hdec.
    { unfold _minimax_decision. by rewrite Hrun. }
    destruct (comprehension (_minimax_decision self) rest) as [ms|] eqn:Hms;
      [|done].
    injection Hrest as <-.
    exists (move :: ms). cbn [comprehension]. rewrite Hdec, Hms.
    split; [done|]. split; [simpl; by rewrite Hlen|].
    intros [|i] o'; simpl.
    + intros [= <-]. exists move. by rewrite Hdec.
    + intros Hi. apply Heach in Hi as (m & ? & ?). by exists m.
Qed.

(** ** The search inside a window *)

(** X6. Whatever the window [alpha < beta], the score that [_minimax]
    returns bounds the unpruned minimax value of the position: a score
    below [beta] is an upper bound, a score above [alpha] is a lower
    bound, and a score strictly inside the window is the exact value. *)
Theorem minimax_window_sound (self : MinimaxPlayer) (board : Board)
  (depth : nat) (maximizing : bool) (alpha beta : Score) :
  alpha ≺ beta →
  ∃ score best_move value move,
    _minimax self board depth maximizing alpha beta = Some (score, best_move)
    ∧ full_minimax self board depth maximizing = Some (value, move)
    ∧ (score ≺ beta → value ⪯ score)
    ∧ (alpha ≺ score → score ⪯ value)
    ∧ (alpha ≺ score → score ≺ beta → score = value).
Proof.
  intros Hopen.
  destruct (minimax_bound self depth maximizing board alpha beta Hopen)
    as (r & m & t & m' & Hrun & Hfull & Hup & Hlow).
  exists r, m, t, m'. split; [done|]. split; [done|].
  split; [done|]. split; [done|].
  intros Ha Hb. apply le_antisym; auto.
Qed.

Lemma minimax_window_sound_witness :
  ∃ score best_move value move,
    _minimax (player_of 2 true) open_pair 2 true (Fin 0) (Fin 10)
      = Some (score, best_move)
    ∧ full_minimax (player_of 2 true) open_pair 2 true = Some (value, move)
    ∧ (score ≺ Fin 10 → value ⪯ score)
    ∧ (Fin 0 ≺ score → score ⪯ value)
    ∧ (Fin 0 ≺ score → score ≺ Fin 10 → score = value).
Proof.
  apply (minimax_window_sound (player_of 2 true) open_pair 2 true
           (Fin 0) (Fin 10)).
  reflexivity.
Defined.

(** ** Infinite scores are forced wins *)

Section ForcedWin.

Variable self : MinimaxPlayer.

Lemma worse_worst maximizing v :
  worse maximizing v (win_score (negb maximizing)) → False.
Proof. destruct maximizing, v; done. Qed.

Lemma no_better_worst maximizing v :
  no_better maximizing v (win_score (negb maximizing)) →
  v = win_score (negb maximizing).
Proof. destruct maximizing, v; done. Qed.

Lemma win_score_negb maximizing :
  win_score (negb maximizing) ≠ win_score maximizing.
Proof. by destruct maximizing. Qed.

(** The value of a legal move: the score of a win if it wins at once,
    else the score of the position it leads to. *)
Lemma move_value_cases frec board maximizing move s :
  In move (valid_moves board) →
  move_value frec board maximizing move = Some s
  ↔ (immediate_win board (side maximizing) move = true
     ∧ s = win_score maximizing)
    ∨ (immediate_win board (side maximizing) move = false
       ∧ ∃ new_board row col best,
           _apply_move board move (side maximizing)
             = Some (new_board, row, col)
           ∧ frec new_board = Some (s, best)).
Proof.
  intros Hin. unfold move_value, immediate_win.
  destruct (apply_move_valid board move (side maximizing) Hin)
    as (nb & i & ->).
  destruct (_check_win nb (side maximizing) _ _).
  - split.
    + intros [= <-]. by left.
    + intros [[_ ->]|[? _]]; done.
  - split.
    + destruct (frec nb) as [[e best]|] eqn:He; [|done].
      intros [= <-]. right. split; [done|]. by exists nb, i, move, best.
    + intros [[? _]|[_ (nb' & row & col & best & [= <- <- <-] & ->)]]; done.
Qed.

Lemma infinite_score_forced winner depth :
  ∀ board maximizing,
    (∃ best, _minimax self board depth maximizing NegInf PosInf
             = Some (win_score winner, best))
    ↔ forced_win winner depth board maximizing.
Proof.
  induction depth as [|depth IH]; intros board maximizing.
  { simpl. destruct (evaluate_total self board) as [z ->].
    split; [|done]. intros [best [= Hz _]]. by destruct winner. }
  destruct (valid_moves board) as [|move0 rest0] eqn:Hvalid.
  { cbn [_minimax forced_win]. rewrite Hvalid.
    destruct (evaluate_total self board) as [z ->]. split.
    - intros [best [= Hz _]]. by destruct winner.
    - destruct (eqb maximizing winner).
      + intros (move & [] & _).
      + intros [Hne _]. done. }
  assert (valid_moves board ≠ []) as Hne by (by rewrite Hvalid).
  destruct (root_choice self board depth maximizing Hne)
    as (score & m & pre & post & Hrun & Hsplit & Hm & Hpre & Hpost).
  assert (∀ m', In m' (valid_moves board) →
            In m' pre ∨ m' = m ∨ In m' post) as Hwhere.
  { intros m' Hin. rewrite Hsplit in Hin.
    apply in_app_or in Hin as [?|[<-|?]]; auto. }
  assert (In m (valid_moves board)) as Hmin.
  { rewrite Hsplit. apply in_or_app. right. by left. }
  (* the value of a child, read through the induction hypothesis *)
  assert (∀ move, In move (valid_moves board) →
            move_value (λ b, full_minimax self b depth (negb maximizing))
              board maximizing move = Some (win_score winner)
            ↔ (immediate_win board (side maximizing) move = true
               ∧ win_score winner = win_score maximizing)
              ∨ (immediate_win board (side maximizing) move = false
                 ∧ ∃ new_board row col,
                     _apply_move board move (side maximizing)
                       = Some (new_board, row, col)
                     ∧ forced_win winner depth new_board (negb maximizing)))
    as Hvalue.
  { intros move Hin. rewrite (move_value_cases _ _ _ _ _ Hin).
    split; (intros [?|[Hno Hchild]]; [by left|right; split; [done|]]).
    - destruct Hchild as (nb & row & col & best & Happly & Hfull).
      exists nb, row, col. split; [done|]. apply IH.
      exists best. by rewrite minimax_root.
    - destruct Hchild as (nb & row & col & Happly & Hforced).
      apply IH in Hforced as [best Hbest]. rewrite minimax_root in Hbest.
      by exists nb, row, col, best. }
  rewrite Hrun. cbn [forced_win].
  destruct (eqb maximizing winner) eqn:Hside.
  - apply eqb_prop in Hside as <-. split.
    + intros [best [= -> _]]. exists m. split; [done|].
      apply Hvalue in Hm as [[? _]|?]; auto.
    + intros (move & Hin & Hmove).
      assert (move_value (λ b, full_minimax self b depth (negb maximizing))
                board maximizing move = Some (win_score maximizing)) as Hv.
      { apply Hvalue; [done|]. destruct Hmove as [?|?]; auto. }
      exists (Some m). do 2 f_equal.
      destruct (Hwhere move Hin) as [Hin'|[->|Hin']].
      * destruct (Hpre move Hin') as (v & Hv' & Hworse).
        rewrite Hv in Hv'. injection Hv' as <-.
        by apply worse_not_win in Hworse.
      * rewrite Hv in Hm. by injection Hm.
      * destruct (Hpost move Hin') as (v & Hv' & Hle).
        rewrite Hv in Hv'. injection Hv' as <-.
        by apply no_better_win.
  - assert (winner = negb maximizing) as ->.
    { by destruct maximizing, winner. }
    split.
    + intros [best [= -> _]]. split; [done|].
      intros move Hin.
      assert (move_value (λ b, full_minimax self b depth (negb maximizing))
                board maximizing move
              = Some (win_score (negb maximizing))) as Hv.
      { destruct (Hwhere move Hin) as [Hin'|[->|Hin']].
        - destruct (Hpre move Hin') as (v & _ & Hworse).
          by apply worse_worst in Hworse.
        - done.
        - destruct (Hpost move Hin') as (v & Hv' & Hle).
          by apply no_better_worst in Hle as ->. }
      apply Hvalue in Hv as [[_ Heq]|?]; [|done|done].
      by apply win_score_negb in Heq.
    + intros [_ Hall]. exists (Some m). do 2 f_equal.
      assert (move_value (λ b, full_minimax self b depth (negb maximizing))
                board maximizing m
              = Some (win_score (negb maximizing))) as Hv.
      { apply Hvalue; [done|]. right. by apply Hall. }
      rewrite Hv in Hm. by injection Hm.
Qed.

End ForcedWin.

(** X7. Whatever the evaluator, the search from the root returns the score
    +infinity exactly when self can force four in a row within the depth
    searched, and -infinity exactly when the opponent can: an infinite
    score is never a heuristic estimate. *)
Theorem infinite_score_iff_forced_win (self : MinimaxPlayer)
  (board : Board) (depth : nat) (maximizing : bool) :
  ((∃ best, _minimax self board depth maximizing NegInf PosInf
            = Some (PosInf, best))
   ↔ forced_win true depth board maximizing)
  ∧ ((∃ best, _minimax self board depth maximizing NegInf PosInf
              = Some (NegInf, best))
     ↔ forced_win false depth board maximizing).
Proof.
  split.
  - apply (infinite_score_forced self true).
  - apply (infinite_score_forced self false).
Qed.

(** ** Horizontal reflection *)

Section Reflection.

Lemma wf_mirror board : wf board → wf (mirror board).
Proof.
  intros [Hlen Hrows]. unfold mirror. split; [by rewrite length_fmap|].
  apply Forall_fmap. eapply Forall_impl; [exact Hrows|].
  intros row Hrow. simpl. by rewrite length_reverse.
Qed.

Lemma reverse_insert_row (row : list Z) (c : nat) (v : Z) :
  length row = 7%nat → (c < 7)%nat →
  reverse (<[c := v]> row) = <[(6 - c)%nat := v]> (reverse row).
Proof.
  intros Hlen Hc.
  destruct row as [|a0 [|a1 [|a2 [|a3 [|a4 [|a5 [|a6 [|a7 row]]]]]]]];
    try discriminate.
  destruct c as [|[|[|[|[|[|[|c]]]]]]]; try lia; reflexivity.
Qed.

Lemma mirror_set_cell board r c v :
  wf board → (c < 7)%nat →
  mirror (set_cell board r c v) = set_cell (mirror board) r (6 - c) v.
Proof.
  intros [_ Hrows] Hc. unfold mirror, set_cell.
  apply list_fmap_alter. eapply Forall_impl; [exact Hrows|].
  intros row Hrow. simpl. by apply reverse_insert_row.
Qed.

(** The cell of the mirrored board, for any column of the board. *)
Lemma get_mirror_reflect board r c :
  wf board → (r < 6)%nat → (c < 7)%nat →
  get (mirror board) r (6 - c) = get board r c.
Proof.
  intros Hwf Hr Hc. rewrite get_mirror by (done || lia).
  by replace (6 - (6 - c))%nat with c by lia.
Qed.

Lemma apply_move_mirror board c player :
  wf board → (c < 7)%nat →
  _apply_move (mirror board) (6 - c) player
  = match _apply_move board c player with
    | Some (new_board, row, _) => Some (mirror new_board, row, (6 - c)%nat)
    | None => None
    end.
Proof.
  intros Hwf Hc.
  destruct (_apply_move board c player) as [[[nb i] c']|] eqn:Happly.
  - apply apply_move_Some in Happly as (-> & Hi & Hempty & -> & Hbelow).
    rewrite mirror_set_cell by done.
    apply apply_move_lands; [done|by rewrite get_mirror_reflect|].
    intros j Hj. rewrite get_mirror_reflect by (done || lia). by apply Hbelow.
  - apply apply_move_None. apply apply_move_None in Happly.
    intros r Hr. rewrite get_mirror_reflect by done. by apply Happly.
Qed.

Lemma check_win_reflect board player row col :
  wf board →
  _check_win (mirror board) player row (6 - col)
  = _check_win board player row col.
Proof.
  intros Hwf. unfold _check_win, directions. cbn [existsb].
  rewrite !orb_false_r.
  set (f dr dc := λ step : Z,
         owned board player (row + step * dr) (col + step * dc)).
  assert (∀ dr dc, scan_line (λ step,
            owned (mirror board) player (row + step * dr)
              (6 - col + step * dc)) steps 0
          = scan_line (f dr (- dc)) steps 0) as Hm.
  { intros dr dc. apply scan_line_ext. intros step _. unfold f.
    replace (6 - col + step * dc) with (6 - (col + step * - dc)) by lia.
    by apply owned_mirror. }
  rewrite !Hm. change (Z.opp 0) with 0. change (Z.opp 1) with (-1).
  change (Z.opp (-1)) with 1. fold (f 1 0) (f 0 1) (f 1 1) (f 1 (-1)).
  assert (scan_line (f 0 (-1)) steps 0 = scan_line (f 0 1) steps 0) as ->.
  { rewrite <- (scan_line_opp (f 0 1)). apply scan_line_ext.
    intros step _. unfold f. f_equal; lia. }
  destruct (scan_line (f 1 0) steps 0), (scan_line (f 0 1) steps 0),
    (scan_line (f 1 1) steps 0), (scan_line (f 1 (-1)) steps 0); reflexivity.
Qed.

Lemma immediate_win_mirror board player c :
  wf board → (c < 7)%nat →
  immediate_win (mirror board) player (6 - c) = immediate_win board player c.
Proof.
  intros Hwf Hc. unfold immediate_win. rewrite apply_move_mirror by done.
  destruct (_apply_move board c player) as [[[nb i] c']|] eqn:Happly; [|done].
  apply apply_move_Some in Happly as (-> & _ & _ & -> & _).
  replace (Z.of_nat (6 - c)) with (6 - Z.of_nat c) by lia.
  apply check_win_reflect. by apply wf_set_cell.
Qed.

(** Counting the columns that pass a test, from either side. *)
Lemma count_reflect (f : nat → bool) :
  length (List.filter (λ c, f (6 - c)%nat) (range 7))
  = length (List.filter f (range 7)).
Proof.
  cbv [range seq List.filter Nat.sub].
  destruct (f 0%nat), (f 1%nat), (f 2%nat), (f 3%nat), (f 4%nat),
    (f 5%nat), (f 6%nat); reflexivity.
Qed.

Lemma count_columns_mirror (f g : nat → bool) :
  (∀ c, (c < 7)%nat → g (6 - c)%nat = f c) →
  length (List.filter g (range 7)) = length (List.filter f (range 7)).
Proof.
  intros Hfg. rewrite <- (count_reflect g). f_equal.
  apply filter_ext_in. intros c Hc%in_seq. apply Hfg. lia.
Qed.

Lemma valid_move_mirror board c :
  wf board → (c < 7)%nat →
  In (6 - c)%nat (valid_moves (mirror board)) ↔ In c (valid_moves board).
Proof.
  intros Hwf Hc. rewrite !elem_of_valid_moves.
  rewrite get_mirror_reflect by (done || lia). lia.
Qed.

Lemma winning_columns_filter board :
  winning_columns board
  = List.filter (λ c, (get board 0 c =? 0) && immediate_win board 1 c)
      (range 7).
Proof. unfold winning_columns, valid_moves. apply filter_filter_andb. Qed.

Lemma simple_evaluate_mirror board :
  wf board →
  _simple_evaluate_board (mirror board) = _simple_evaluate_board board.
Proof.
  intros Hwf. rewrite !simple_evaluate_count, !winning_columns_filter.
  do 3 f_equal. apply count_columns_mirror. intros c Hc.
  rewrite get_mirror_reflect by (done || lia).
  by rewrite immediate_win_mirror.
Qed.

End Reflection.

(** X8. Dropping a piece commutes with the horizontal reflection of the
    board: in the mirrored column of the mirrored board the piece lands on
    the same row and leaves the mirror image of the board, and the move is
    refused on one board exactly when it is refused on the other. *)
Theorem apply_move_reflection (board : Board) (c : nat) (player : Z) :
  wf board → (c < 7)%nat →
  _apply_move (mirror board) (6 - c) player
  = match _apply_move board c player with
    | Some (new_board, row, _) => Some (mirror new_board, row, (6 - c)%nat)
    | None => None
    end.
Proof. apply apply_move_mirror. Qed.

Lemma apply_move_reflection_witness :
  _apply_move (mirror two_threats) (6 - 5) 1
  = match _apply_move two_threats 5 1 with
    | Some (new_board, row, _) => Some (mirror new_board, row, (6 - 5)%nat)
    | None => None
    end.
Proof.
  apply (apply_move_reflection two_threats 5 1).
  - apply wfb_wf. reflexivity.
  - lia.
Defined.

(** ** The heuristic evaluation and the reflection *)

Section Lines.

Lemma fold_left_ext_in {A B : Type} (f g : A → B → A) (l : list B) (a : A) :
  (∀ a x, In x l → f a x = g a x) → fold_left f l a = fold_left g l a.
Proof.
  revert a. induction l as [|x l IH]; intros a Hfg; [done|]. simpl.
  rewrite (Hfg a x) by (by left). apply IH. intros; apply Hfg; by right.
Qed.

(** [_evaluate_line] is the sum of the scores of its windows. *)
Lemma evaluate_line_sum line player :
  _evaluate_line line player
  = fold_left (λ score i,
      score + window_score player (take 4 (drop i line)))
      (range (length line - 3)) 0.
Proof.
  unfold _evaluate_line. apply fold_left_ext_in. intros score i _.
  unfold window_score.
  repeat match goal with
         | |- context [if ?b then _ else _] => destruct b
         end; lia.
Qed.

Lemma line_count_app x l1 l2 :
  line_count x (l1 ++ l2) = (line_count x l1 + line_count x l2)%nat.
Proof.
  induction l1 as [|[y|] l1 IH]; simpl; [done| |done].
  destruct (y =? x); simpl; by rewrite IH.
Qed.

Lemma line_count_reverse x l : line_count x (reverse l) = line_count x l.
Proof.
  induction l as [|y l IH]; [done|].
  rewrite reverse_cons, line_count_app, IH.
  change (y :: l) with ([y] ++ l). rewrite line_count_app. lia.
Qed.

Lemma window_score_reverse player window :
  window_score player (reverse window) = window_score player window.
Proof. unfold window_score. by rewrite !line_count_reverse. Qed.

(** A line of seven scores the same read from either end. *)
Lemma evaluate_line_reverse line player :
  length line = 7%nat →
  _evaluate_line (reverse line) player = _evaluate_line line player.
Proof.
  intros Hlen. rewrite !evaluate_line_sum, length_reverse, Hlen.
  destruct line as [|a0 [|a1 [|a2 [|a3 [|a4 [|a5 [|a6 [|a7 line]]]]]]]];
    try discriminate.
  cbv [range seq fold_left firstn skipn reverse rev_append Nat.sub].
  change [a6; a5; a4; a3] with (reverse [a3; a4; a5; a6]).
  change [a5; a4; a3; a2] with (reverse [a2; a3; a4; a5]).
  change [a4; a3; a2; a1] with (reverse [a1; a2; a3; a4]).
  change [a3; a2; a1; a0] with (reverse [a0; a1; a2; a3]).
  rewrite !window_score_reverse. lia.
Qed.

Lemma score_position_lines board row col player :
  _score_position board row col player
  = _evaluate_line (line_of board row col 1 0) player
    + _evaluate_line (line_of board row col 0 1) player
    + _evaluate_line (line_of board row col 1 1) player
    + _evaluate_line (line_of board row col 1 (-1)) player.
Proof. unfold _score_position, directions, line_of. cbn [fold_left]. lia. Qed.

Lemma line_of_mirror board row col dr dc :
  wf board →
  line_of (mirror board) row (6 - col) dr dc = line_of board row col dr (- dc).
Proof.
  intros Hwf. unfold line_of. apply map_ext. intros step. cbv zeta.
  replace (6 - col + step * dc) with (6 - (col + step * - dc)) by lia.
  generalize (row + step * dr) as r. generalize (col + step * - dc) as c.
  intros c r.
  destruct (0 <=? r) eqn:E1; [|done]. destruct (r <? 6) eqn:E2; [|done].
  simpl.
  destruct (0 <=? c) eqn:E3, (c <? 7) eqn:E4;
    destruct (0 <=? 6 - c) eqn:E5, (6 - c <? 7) eqn:E6; simpl;
    try done; try lia.
  rewrite get_mirror by (done || lia).
  by replace (6 - Z.to_nat (6 - c))%nat with (Z.to_nat c) by lia.
Qed.

Lemma line_of_opp board row col :
  line_of board row col 0 (-1) = reverse (line_of board row col 0 1).
Proof.
  unfold line_of. cbv [steps map reverse rev_append].
  repeat (f_equal; try lia).
Qed.

Lemma length_line_of board row col dr dc :
  length (line_of board row col dr dc) = 7%nat.
Proof. unfold line_of. by rewrite length_map. Qed.

Lemma score_position_mirror board row col player :
  wf board →
  _score_position (mirror board) row (6 - col) player
  = _score_position board row col player.
Proof.
  intros Hwf. rewrite !score_position_lines, !line_of_mirror by done.
  change (Z.opp 0) with 0. change (Z.opp 1) with (-1).
  change (Z.opp (-1)) with 1.
  rewrite line_of_opp, evaluate_line_reverse by apply length_line_of. lia.
Qed.

End Lines.

Section BoardSums.

(** Sums and counts over the cells of the board, column order reversed. *)
Lemma fold_cells_reflect (t : nat → nat → Z) (s0 : Z) :
  fold_left (λ s '(r, c), s + t r (6 - c)%nat) cells s0
  = fold_left (λ s '(r, c), s + t r c) cells s0.
Proof.
  unfold cells. revert s0. generalize (range 6) as rows.
  induction rows as [|r rows IH]; intros s0; [done|].
  cbn [flat_map]. rewrite !fold_left_app, <- IH. f_equal.
  cbv [range seq map fold_left Nat.sub]. lia.
Qed.

Lemma count_cells_reflect (P : nat → nat → bool) :
  length (List.filter (λ '(r, c), P r (6 - c)%nat) cells)
  = length (List.filter (λ '(r, c), P r c) cells).
Proof.
  unfold cells. generalize (range 6) as rows.
  induction rows as [|r rows IH]; [done|].
  cbn [flat_map]. rewrite !List.filter_app, !length_app, IH. f_equal.
  cbv [range seq map List.filter Nat.sub].
  destruct (P r 0%nat), (P r 1%nat), (P r 2%nat), (P r 3%nat),
    (P r 4%nat), (P r 5%nat), (P r 6%nat); reflexivity.
Qed.

Lemma pattern_score_mirror board s0 :
  wf board → pattern_score (mirror board) s0 = pattern_score board s0.
Proof.
  intros Hwf. unfold pattern_score.
  set (t := λ r c : nat,
         if get board r c =? 0 then 0
         else _score_position board (Z.of_nat r) (Z.of_nat c) 1
              - _score_position board (Z.of_nat r) (Z.of_nat c) (-1)).
  transitivity (fold_left (λ s '(r, c), s + t r c) cells s0).
  - rewrite <- fold_cells_reflect. apply fold_left_ext_in.
    intros s [r c] [Hr Hc]%in_cells. unfold t.
    rewrite get_mirror by done.
    replace (Z.of_nat c) with (6 - Z.of_nat (6 - c)) by lia.
    rewrite !score_position_mirror by done.
    destruct (get board r (6 - c) =? 0); lia.
  - apply fold_left_ext_in. intros s [r c] _. unfold t.
    destruct (get board r c =? 0); lia.
Qed.

Lemma winning_moves_mirror board player :
  wf board → winning_moves (mirror board) player = winning_moves board player.
Proof.
  intros Hwf. rewrite !winning_moves_count. do 2 f_equal.
  apply count_columns_mirror. intros c Hc.
  rewrite get_mirror_reflect by (done || lia).
  by rewrite immediate_win_mirror.
Qed.

Lemma drop_fork_mirror board player c :
  wf board → (c < 7)%nat →
  drop_fork (mirror board) player (6 - c) = drop_fork board player c.
Proof.
  intros Hwf Hc. rewrite <- !drop_fork_loop.
  rewrite apply_move_mirror by done.
  destruct (_apply_move board c player) as [[[nb i] c']|] eqn:Happly; [|done].
  apply apply_move_Some in Happly as (_ & _ & _ & -> & _).
  rewrite winning_moves_mirror; [done|by apply wf_set_cell].
Qed.

Lemma fork_cells_mirror board player :
  wf board →
  length (fork_cells (mirror board) player)
  = length (fork_cells board player).
Proof.
  intros Hwf. unfold fork_cells.
  rewrite <- (count_cells_reflect
                (λ r c, (get board r c =? 0) && drop_fork board player c)).
  f_equal. apply filter_ext_in. intros [r c] [Hr Hc]%in_cells.
  rewrite get_mirror by done. f_equal.
  rewrite <- (drop_fork_mirror board player (6 - c)) by (done || lia).
  by replace (6 - (6 - c))%nat with c by lia.
Qed.

Lemma center_count_mirror board :
  wf board → center_count (mirror board) = center_count board.
Proof.
  intros Hwf. unfold center_count. do 2 f_equal.
  apply map_ext_in. intros r Hr%in_seq.
  by rewrite (get_mirror board r 3) by (done || lia).
Qed.

Lemma evaluate_board_mirror board :
  wf board → _evaluate_board (mirror board) = _evaluate_board board.
Proof.
  intros Hwf. unfold _evaluate_board.
  rewrite !detect_forks_count, !fork_cells_mirror by done.
  by rewrite center_count_mirror, pattern_score_mirror.
Qed.

Lemma evaluate_mirror self board :
  wf board → evaluate self (mirror board) = evaluate self board.
Proof.
  intros Hwf. unfold evaluate.
  by rewrite evaluate_board_mirror, simple_evaluate_mirror.
Qed.

End BoardSums.

(** X9. Both static evaluators give a 6x7 board and its mirror image the
    same score: the simple count of winning columns, and the heuristic sum
    of centre, pattern and fork terms, each of which is itself unchanged
    by the reflection. *)
Theorem evaluation_reflection (board : Board) :
  wf board →
  _simple_evaluate_board (mirror board) = _simple_evaluate_board board
  ∧ _evaluate_board (mirror board) = _evaluate_board board
  ∧ center_count (mirror board) = center_count board
  ∧ (∀ score, pattern_score (mirror board) score = pattern_score board score)
  ∧ (∀ player,
       _detect_forks (mirror board) player = _detect_forks board player).
Proof.
  intros Hwf.
  split; [by apply simple_evaluate_mirror|].
  split; [by apply evaluate_board_mirror|].
  split; [by apply center_count_mirror|].
  split; [intros; by apply pattern_score_mirror|].
  intros player. by rewrite !detect_forks_count, fork_cells_mirror.
Qed.

Lemma evaluation_reflection_witness :
  _simple_evaluate_board (mirror two_threats)
  = _simple_evaluate_board two_threats
  ∧ _evaluate_board (mirror two_threats) = _evaluate_board two_threats
  ∧ center_count (mirror two_threats) = center_count two_threats
  ∧ (∀ score,
       pattern_score (mirror two_threats) score
       = pattern_score two_threats score)
  ∧ (∀ player,
       _detect_forks (mirror two_threats) player
       = _detect_forks two_threats player).
Proof.
  apply (evaluation_reflection two_threats). apply wfb_wf. reflexivity.
Defined.

(** X10. The pattern score of a cell is unchanged by the reflection: the
    mirrored cell of the mirrored board scores what the cell scores, for
    either player, and a line of seven scores the same read from either
    end. *)
Theorem score_position_reflection (board : Board) (row col : Z)
  (player : Z) (line : list (option Z)) :
  wf board → length line = 7%nat →
  _score_position (mirror board) row (6 - col) player
  = _score_position board row col player
  ∧ _evaluate_line (reverse line) player = _evaluate_line line player.
Proof.
  intros Hwf Hlen. split.
  - by apply score_position_mirror.
  - by apply evaluate_line_reverse.
Qed.

Lemma score_position_reflection_witness :
  _score_position (mirror two_threats) 5 (6 - 5) 1
  = _score_position two_threats 5 5 1
  ∧ _evaluate_line (reverse [Some 1; Some 1; Some 1; Some 0; None; None; None])
      1
    = _evaluate_line [Some 1; Some 1; Some 1; Some 0; None; None; None] 1.
Proof.
  apply (score_position_reflection two_threats 5 5 1
           [Some 1; Some 1; Some 1; Some 0; None; None; None]).
  - apply wfb_wf. reflexivity.
  - reflexivity.
Defined.

(** ** The search and the reflection *)

Section SearchReflection.

Variable self : MinimaxPlayer.

Lemma no_better_antisym maximizing x y :
  no_better maximizing x y → no_better maximizing y x → x = y.
Proof. destruct maximizing; simpl; intros; by apply le_antisym. Qed.

Lemma worse_no_better maximizing x y :
  worse maximizing x y → no_better maximizing x y.
Proof. destruct maximizing; simpl; apply lt_le. Qed.

Lemma no_better_refl maximizing x : no_better maximizing x x.
Proof. destruct maximizing; simpl; apply le_refl. Qed.

(** The score returned from the root is the value of some legal move, and
    no legal move has a better one. *)
Lemma root_value_best board depth maximizing :
  valid_moves board ≠ [] →
  ∃ score best,
    _minimax self board (S depth) maximizing NegInf PosInf
      = Some (score, best)
    ∧ (∃ m, In m (valid_moves board)
         ∧ move_value (λ b, full_minimax self b depth (negb maximizing))
             board maximizing m = Some score)
    ∧ ∀ m, In m (valid_moves board) →
        ∃ v, move_value (λ b, full_minimax self b depth (negb maximizing))
               board maximizing m = Some v
          ∧ no_better maximizing v score.
Proof.
  intros Hne.
  destruct (root_choice self board depth maximizing Hne)
    as (score & m & pre & post & Hrun & Hsplit & Hm & Hpre & Hpost).
  exists score, (Some m). split; [done|]. split.
  - exists m. split; [|done]. rewrite Hsplit. apply in_or_app. right. by left.
  - intros m' Hin. rewrite Hsplit in Hin.
    apply in_app_or in Hin as [Hin|[<-|Hin]].
    + destruct (Hpre m' Hin) as (v & ? & ?%worse_no_better). by exists v.
    + exists score. split; [done|apply no_better_refl].
    + by apply Hpost.
Qed.

Lemma valid_moves_mirror_nil board :
  wf board → valid_moves board = [] → valid_moves (mirror board) = [].
Proof.
  intros Hwf Hnil.
  destruct (valid_moves (mirror board)) as [|c rest] eqn:E; [done|].
  assert (In c (valid_moves (mirror board))) as Hin by (rewrite E; by left).
  pose proof Hin as [Hc _]%elem_of_valid_moves.
  replace c with (6 - (6 - c))%nat in Hin by lia.
  apply (proj1 (valid_move_mirror board (6 - c) Hwf ltac:(lia))) in Hin.
  by rewrite Hnil in Hin.
Qed.

Lemma mirror_involutive board : mirror (mirror board) = board.
Proof.
  unfold mirror. rewrite <- list_fmap_compose.
  rewrite <- (list_fmap_id board) at 2. apply list_fmap_ext.
  intros i row _. simpl. apply reverse_involutive.
Qed.

Lemma minimax_score_mirror depth :
  ∀ board maximizing, wf board →
    ∃ score best best',
      _minimax self board depth maximizing NegInf PosInf
        = Some (score, best)
      ∧ _minimax self (mirror board) depth maximizing NegInf PosInf
        = Some (score, best').
Proof.
  induction depth as [|depth IH]; intros board maximizing Hwf.
  { simpl. rewrite evaluate_mirror by done.
    destruct (evaluate_total self board) as [z ->]. eauto. }
  destruct (valid_moves board) as [|c0 rest0] eqn:Hvalid.
  { cbn [_minimax]. rewrite Hvalid, (valid_moves_mirror_nil board Hwf Hvalid).
    rewrite evaluate_mirror by done.
    destruct (evaluate_total self board) as [z ->]. eauto. }
  assert (valid_moves board ≠ []) as Hne by (by rewrite Hvalid).
  assert (valid_moves (mirror board) ≠ []) as Hne'.
  { intros Hnil. apply Hne. rewrite <- (mirror_involutive board).
    apply valid_moves_mirror_nil; [by apply wf_mirror|done]. }
  (* a move and its mirror image have the same value *)
  assert (∀ c, (c < 7)%nat →
            move_value (λ b, full_minimax self b depth (negb maximizing))
              (mirror board) maximizing (6 - c)
            = move_value (λ b, full_minimax self b depth (negb maximizing))
                board maximizing c) as Hvalue.
  { intros c Hc. unfold move_value. rewrite apply_move_mirror by done.
    destruct (_apply_move board c (side maximizing)) as [[[nb i] c']|]
      eqn:Happly; [|done].
    apply apply_move_Some in Happly as (-> & _ & _ & -> & _).
    assert (wf (set_cell board i c (side maximizing))) as Hwf'
      by (by apply wf_set_cell).
    replace (Z.of_nat (6 - c)) with (6 - Z.of_nat c) by lia.
    rewrite check_win_reflect by done.
    destruct (_check_win _ _ _ _); [done|].
    destruct (IH _ (negb maximizing) Hwf') as (s & b1 & b2 & H1 & H2).
    rewrite minimax_root in H1, H2. by rewrite H1, H2. }
  destruct (root_value_best board depth maximizing Hne)
    as (s & best & Hrun & (m & Hm & Hms) & Hbest).
  destruct (root_value_best (mirror board) depth maximizing Hne')
    as (s' & best' & Hrun' & (m' & Hm' & Hms') & Hbest').
  exists s, best, best'. split; [done|]. rewrite Hrun'. do 2 f_equal.
  pose proof Hm as [Hm7 _]%elem_of_valid_moves.
  pose proof Hm' as [Hm7' _]%elem_of_valid_moves.
  apply (no_better_antisym maximizing).
  - replace m' with (6 - (6 - m'))%nat in Hm', Hms' by lia.
    rewrite Hvalue in Hms' by lia.
    apply (proj1 (valid_move_mirror board (6 - m') Hwf ltac:(lia))) in Hm'.
    destruct (Hbest _ Hm') as (v & Hv & Hle).
    rewrite Hms' in Hv. by injection Hv as <-.
  - rewrite <- Hvalue in Hms by done.
    apply (proj2 (valid_move_mirror board m Hwf Hm7)) in Hm.
    destruct (Hbest' _ Hm) as (v & Hv & Hle).
    rewrite Hms in Hv. by injection Hv as <-.
Qed.

End SearchReflection.

(** X11. The score that the search returns from the root is the same for a
    6x7 board and for its mirror image, at every depth, for either side and
    either evaluator (the column returned need not be the mirror image,
    since ties go to the lowest column on both boards). *)
Theorem minimax_score_reflection (self : MinimaxPlayer) (board : Board)
  (depth : nat) (maximizing : bool) :
  wf board →
  ∃ score best best',
    _minimax self board depth maximizing NegInf PosInf = Some (score, best)
    ∧ _minimax self (mirror board) depth maximizing NegInf PosInf
      = Some (score, best').
Proof. apply minimax_score_mirror. Qed.

Lemma minimax_score_reflection_witness :
  ∃ score best best',
    _minimax (player_of 2 true) three_in_row 2 true NegInf PosInf
      = Some (score, best)
    ∧ _minimax (player_of 2 true) (mirror three_in_row) 2 true NegInf PosInf
      = Some (score, best').
Proof.
  apply (minimax_score_reflection (player_of 2 true) three_in_row 2 true).
  apply wfb_wf. reflexivity.
Defined.

(** ** No move that loses at once *)

(** X12. A search of depth 2 or more never returns a column after which
    the other side can complete four in a row at once, unless every legal
    move loses: when the score is not the loss of the side to move, the
    column returned either wins at once or leaves the other side without
    an immediately winning reply. *)
Theorem search_avoids_immediate_loss (self : MinimaxPlayer) (board : Board)
  (depth : nat) (maximizing : bool) (score : Score) (m : nat) :
  _minimax self board (S (S depth)) maximizing NegInf PosInf
    = Some (score, Some m) →
  score ≠ win_score (negb maximizing) →
  immediate_win board (side maximizing) m = true
  ∨ ∃ new_board row col,
      _apply_move board m (side maximizing) = Some (new_board, row, col)
      ∧ ∀ reply, In reply (valid_moves new_board) →
          immediate_win new_board (side (negb maximizing)) reply = false.
Proof.
  intros Hrun Hscore.
  assert (valid_moves board ≠ []) as Hne.
  { intros Hnil.
    destruct (minimax_total self board (S (S depth)) maximizing NegInf PosInf)
      as (s & best & Hrun' & Hnone & _).
    rewrite Hrun in Hrun'. injection Hrun' as <- <-.
    by specialize (Hnone Hnil). }
  destruct (root_choice self board (S depth) maximizing Hne)
    as (score' & m' & pre & post & Hrun' & Hsplit & Hm & _).
  rewrite Hrun in Hrun'. injection Hrun' as <- <-.
  assert (In m (valid_moves board)) as Hin.
  { rewrite Hsplit. apply in_or_app. right. by left. }
  apply (move_value_cases _ _ _ _ _ Hin) in Hm
    as [[? _]|[_ (nb & row & col & best & Happly & Hchild)]]; [by left|].
  right. exists nb, row, col. split; [done|].
  intros reply Hreply.
  destruct (immediate_win nb (side (negb maximizing)) reply) eqn:Hwin; [|done].
  exfalso. apply Hscore.
  assert (forced_win (negb maximizing) (S depth) nb (negb maximizing))
    as Hforced.
  { cbn [forced_win]. rewrite eqb_reflx. exists reply. split; [done|by left]. }
  apply (infinite_score_forced self) in Hforced as [best' Hbest].
  rewrite minimax_root, Hchild in Hbest. by injection Hbest.
Qed.

Lemma search_avoids_immediate_loss_witness :
  immediate_win must_block (side true) 3 = true
  ∨ ∃ new_board row col,
      _apply_move must_block 3 (side true) = Some (new_board, row, col)
      ∧ ∀ reply, In reply (valid_moves new_board) →
          immediate_win new_board (side (negb true)) reply = false.
Proof.
  apply (search_avoids_immediate_loss (player_of 2 true) must_block 0 true
           (Fin (-10)) 3).
  - vm_compute. reflexivity.
  - discriminate.
Defined.

(** ** A board without legal move *)

(** X13. On a 6x7 board that satisfies the gravity invariant there is no
    legal move exactly when no cell of the board is empty, so that the
    [None] of [play] means a board filled to the last cell. *)
Theorem no_legal_move_full_board (self : MinimaxPlayer) (board : Board) :
  wf board → gravity board →
  (valid_moves board = []
   ↔ ∀ r c, (r < 6)%nat → (c < 7)%nat → get board r c ≠ 0)
  ∧ (play self (Single board) = Some (Move None)
     ↔ ∀ r c, (r < 6)%nat → (c < 7)%nat → get board r c ≠ 0).
Proof.
  intros Hwf Hgrav.
  assert (valid_moves board = []
          ↔ ∀ r c, (r < 6)%nat → (c < 7)%nat → get board r c ≠ 0) as Hfull.
  { split.
    - intros Hnil r c Hr Hc.
      apply (gravity_top_full board c Hgrav Hc); [|done].
      intros Hzero.
      assert (In c (valid_moves board)) as Hin
        by (by apply elem_of_valid_moves).
      by rewrite Hnil in Hin.
    - intros Hall.
      destruct (valid_moves board) as [|c rest] eqn:E; [done|].
      assert (In c (valid_moves board)) as Hin by (rewrite E; by left).
      apply elem_of_valid_moves in Hin as [Hc Hzero].
      by specialize (Hall 0%nat c ltac:(lia) Hc). }
  split; [done|]. rewrite <- Hfull.
  destruct (minimax_total self board (max_depth self) true NegInf PosInf)
    as (score & best & Hrun & Hnone & Hsome).
  unfold play, _minimax_decision. rewrite Hrun. split.
  - intros [= ->].
    destruct (valid_moves board) as [|c rest] eqn:E; [done|].
    destruct Hsome as (move & ? & _); done.
  - intros Hnil. by rewrite (Hnone Hnil).
Qed.

Lemma no_legal_move_full_board_witness :
  (valid_moves open_pair = []
   ↔ ∀ r c, (r < 6)%nat → (c < 7)%nat → get open_pair r c ≠ 0)
  ∧ (play (player_of 2 true) (Single open_pair) = Some (Move None)
     ↔ ∀ r c, (r < 6)%nat → (c < 7)%nat → get open_pair r c ≠ 0).
Proof.
  apply (no_legal_move_full_board (player_of 2 true) open_pair).
  - apply wfb_wf. reflexivity.
  - apply gravityb_gravity. reflexivity.
Defined.

(** ** The fork term, column by column *)

Section ForkColumns.

Lemma sum_over_add l f g :
  sum_over l (λ x, f x + g x) = sum_over l f + sum_over l g.
Proof.
  unfold sum_over. induction l as [|x l IH]; simpl; [done|].
  rewrite IH. lia.
Qed.

Lemma sum_over_ext l f g :
  (∀ x, In x l → f x = g x) → sum_over l f = sum_over l g.
Proof.
  unfold sum_over. induction l as [|x l IH]; intros Hfg; simpl; [done|].
  rewrite (Hfg x) by (by left). rewrite IH; [done|].
  intros; apply Hfg; by right.
Qed.

Lemma sum_over_zero l : sum_over l (λ _, 0) = 0.
Proof. unfold sum_over. induction l as [|x l IH]; simpl; [done|]. lia. Qed.

(** The number of elements that pass a test, as a sum. *)
Lemma length_filter_sum (f : nat → bool) l :
  Z.of_nat (length (List.filter f l))
  = sum_over l (λ x, if f x then 1 else 0).
Proof.
  unfold sum_over. induction l as [|x l IH]; simpl; [done|].
  destruct (f x); simpl; lia.
Qed.

Lemma count_row (P : nat → nat → bool) (r : nat) (cols : list nat) :
  Z.of_nat (length (List.filter (λ '(r, c), P r c)
              (map (λ c, (r, c)) cols)))
  = sum_over cols (λ c, if P r c then 1 else 0).
Proof.
  unfold sum_over. induction cols as [|c cols IH]; simpl; [done|].
  destruct (P r c); simpl; lia.
Qed.

(** A count over the cells, row by row, is a sum over the columns. *)
Lemma count_cells_by_column (P : nat → nat → bool) (rows cols : list nat) :
  Z.of_nat (length (List.filter (λ '(r, c), P r c)
              (flat_map (λ r, map (λ c, (r, c)) cols) rows)))
  = sum_over cols (λ c,
      Z.of_nat (length (List.filter (λ r, P r c) rows))).
Proof.
  induction rows as [|r rows IH].
  { simpl. by rewrite sum_over_zero. }
  cbn [flat_map]. rewrite List.filter_app, length_app, Nat2Z.inj_add, IH.
  rewrite count_row, <- sum_over_add.
  apply sum_over_ext. intros c _. cbn [List.filter].
  destruct (P r c); simpl; lia.
Qed.

Lemma fork_cells_by_column board player :
  Z.of_nat (length (fork_cells board player))
  = sum_over (range 7) (λ c,
      if drop_fork board player c
      then Z.of_nat (empty_in_column board c) else 0).
Proof.
  unfold fork_cells, cells.
  rewrite (count_cells_by_column
             (λ r c, (get board r c =? 0) && drop_fork board player c)).
  apply sum_over_ext. intros c _. unfold empty_in_column.
  destruct (drop_fork board player c).
  - do 2 f_equal. apply filter_ext. intros r. apply andb_true_r.
  - rewrite (filter_ext _ (λ _, false)) by (intros; apply andb_false_r).
    clear. induction (range 6) as [|r l IH]; [done|]. simpl. exact IH.
Qed.

End ForkColumns.

(** X14. The fork term is 50 times the sum, over the columns in which a
    dropped piece of the player would leave more than one legal column
    whose drop completes a win for the player, of the number of empty cells
    of the column: a fork in an emptier column weighs more. *)
Theorem detect_forks_by_column (board : Board) (player : Z) :
  _detect_forks board player
  = Some (50 * sum_over (range 7) (λ c,
            if drop_fork board player c
            then Z.of_nat (empty_in_column board c) else 0))
  ∧ ∀ c,
      drop_fork board player c = true
      ↔ ∃ simulated_board row col,
          _apply_move board c player = Some (simulated_board, row, col)
          ∧ (1 < length (List.filter
                   (λ move,
                      match _apply_move simulated_board move player with
                      | Some (test_board, test_row, test_col) =>
                          _check_win test_board player
                            (Z.of_nat test_row) (Z.of_nat test_col)
                      | None => false
                      end)
                   (valid_moves simulated_board)))%nat.
Proof.
  split; [by rewrite detect_forks_count, fork_cells_by_column|].
  intros c. unfold drop_fork, is_fork. split.
  - destruct (_apply_move board c player) as [[[sb i] c']|]; [|done].
    intros Hfork%Nat.ltb_lt. by exists sb, i, c'.
  - intros (sb & i & c' & -> & Hfork). by apply Nat.ltb_lt.
Qed.

(** ** The range of the evaluations *)

Section Ranges.

Lemma window_score_range player window :
  -20 <= window_score player window <= 1000.
Proof.
  unfold window_score.
  repeat match goal with
         | |- context [if ?b then _ else _] => destruct b
         end; lia.
Qed.

Lemma fold_left_range {B : Type} (f : Z → B → Z) (lo hi : Z) (l : list B)
  (s : Z) :
  (∀ a x, a + lo <= f a x <= a + hi) →
  s + lo * Z.of_nat (length l) <= fold_left f l s
    <= s + hi * Z.of_nat (length l).
Proof.
  intros Hstep. revert s. induction l as [|x l IH]; intros s.
  { simpl. lia. }
  cbn [fold_left length]. specialize (IH (f s x)).
  specialize (Hstep s x). lia.
Qed.

Lemma evaluate_line_range line player :
  -20 * Z.of_nat (length line - 3) <= _evaluate_line line player
    <= 1000 * Z.of_nat (length line - 3).
Proof.
  rewrite evaluate_line_sum.
  pose proof (fold_left_range
    (λ score i, score + window_score player (take 4 (drop i line)))
    (-20) 1000 (range (length line - 3)) 0) as H.
  unfold range in *. rewrite length_seq in H. apply H.
  intros a i. pose proof (window_score_range player (take 4 (drop i line))).
  lia.
Qed.

Lemma score_position_range board row col player :
  -320 <= _score_position board row col player <= 16000.
Proof.
  rewrite score_position_lines.
  pose proof (evaluate_line_range (line_of board row col 1 0) player).
  pose proof (evaluate_line_range (line_of board row col 0 1) player).
  pose proof (evaluate_line_range (line_of board row col 1 1) player).
  pose proof (evaluate_line_range (line_of board row col 1 (-1)) player).
  rewrite !length_line_of in *. lia.
Qed.

Lemma pattern_score_range board s :
  s - 16320 * 42 <= pattern_score board s <= s + 16320 * 42.
Proof.
  unfold pattern_score.
  pose proof (fold_left_range
    (λ score '(r, c),
       if get board r c =? 0 then score
       else score + _score_position board (Z.of_nat r) (Z.of_nat c) 1
            - _score_position board (Z.of_nat r) (Z.of_nat c) (-1))
    (-16320) 16320 cells s) as H.
  change (Z.of_nat (length cells)) with 42 in H.
  enough (∀ a x, a + -16320 <=
            (let '(r, c) := x in
             if get board r c =? 0 then a
             else a + _score_position board (Z.of_nat r) (Z.of_nat c) 1
                  - _score_position board (Z.of_nat r) (Z.of_nat c) (-1))
            <= a + 16320) as Hstep by (specialize (H Hstep); lia).
  intros a [r c].
  pose proof (score_position_range board (Z.of_nat r) (Z.of_nat c) 1).
  pose proof (score_position_range board (Z.of_nat r) (Z.of_nat c) (-1)).
  destruct (get board r c =? 0); lia.
Qed.

Lemma length_filter_le {A : Type} (f : A → bool) (l : list A) :
  (length (List.filter f l) ≤ length l)%nat.
Proof.
  induction l as [|x l IH]; simpl; [lia|]. destruct (f x); simpl; lia.
Qed.

Lemma center_count_range board : 0 <= center_count board <= 6.
Proof.
  unfold center_count.
  assert (∀ x l, (line_count x l ≤ length l)%nat) as Hle.
  { intros x l. induction l as [|[y|] l IH]; simpl; [lia| |lia].
    destruct (y =? x); simpl; lia. }
  specialize (Hle 1 (map (λ i, Some (get board i 3)) (range 6))).
  unfold range in *. rewrite length_map, length_seq in Hle. lia.
Qed.

Lemma fork_cells_range board player :
  (length (fork_cells board player) ≤ 42)%nat.
Proof. unfold fork_cells. apply (length_filter_le _ cells). Qed.

End Ranges.

(** X15. The static evaluations are bounded whatever the cell values: a
    line of seven scores between -80 and 4000, a cell between -320 and
    16000, the fork term between 0 and 2100, the simple evaluation between
    0 and 700 and the heuristic evaluation between -687540 and 687564, so
    every score fits a signed 32-bit integer. *)
Theorem evaluation_ranges (board : Board) (row col : Z) (player : Z) :
  (∀ line, length line = 7%nat →
     -80 <= _evaluate_line line player <= 4000)
  ∧ -320 <= _score_position board row col player <= 16000
  ∧ (∃ forks, _detect_forks board player = Some forks ∧ 0 <= forks <= 2100)
  ∧ (∃ score, _simple_evaluate_board board = Some score ∧ 0 <= score <= 700)
  ∧ (∃ score, _evaluate_board board = Some score
       ∧ -687540 <= score <= 687564).
Proof.
  split.
  { intros line Hlen. pose proof (evaluate_line_range line player) as H.
    rewrite Hlen in H. simpl in H. lia. }
  split; [apply score_position_range|].
  split.
  { rewrite detect_forks_count. eexists. split; [done|].
    pose proof (fork_cells_range board player). lia. }
  split.
  { rewrite simple_evaluate_count. eexists. split; [done|].
    pose proof (length_filter_le (immediate_win board 1) (valid_moves board))
      as H1.
    pose proof (length_filter_le (λ c, get board 0 c =? 0) (range 7)) as H2.
    unfold range in H2. rewrite length_seq in H2.
    unfold winning_columns. unfold valid_moves, range in *. lia. }
  unfold _evaluate_board. rewrite !detect_forks_count. eexists.
  split; [done|].
  pose proof (fork_cells_range board 1).
  pose proof (fork_cells_range board (-1)).
  pose proof (center_count_range board).
  pose proof (pattern_score_range board (0 + center_count board * 4)).
  lia.
Qed.

(** ** Exchanging the colours *)

Section Colours.

Lemma lookup_map {A B : Type} (f : A → B) (l : list A) (i : nat) :
  map f l !! i = option_map f (l !! i).
Proof.
  revert i. induction l as [|x l IH]; intros [|i]; simpl; auto.
Qed.

Lemma map_insert {A B : Type} (f : A → B) (l : list A) (i : nat) (x : A) :
  map f (<[i := x]> l) = <[i := f x]> (map f l).
Proof.
  revert i. induction l as [|y l IH]; intros [|i]; simpl; try done.
  f_equal. apply IH.
Qed.

Lemma map_alter {A B : Type} (f : A → B) (g : A → A) (h : B → B)
  (l : list A) (i : nat) :
  (∀ x, f (g x) = h (f x)) → map f (alter g i l) = alter h i (map f l).
Proof.
  intros Hfg. revert i. induction l as [|y l IH]; intros [|i]; simpl;
    try done; f_equal; auto. apply IH.
Qed.

Lemma get_swap board r c : get (swap_colours board) r c = - get board r c.
Proof.
  unfold get, swap_colours. rewrite lookup_map.
  destruct (board !! r) as [row|]; simpl; [|done].
  rewrite lookup_map. by destruct (row !! c).
Qed.

Lemma get_swap_zero board r c :
  (get (swap_colours board) r c =? 0) = (get board r c =? 0).
Proof.
  rewrite get_swap.
  destruct (Z.eqb_spec (get board r c) 0), (Z.eqb_spec (- get board r c) 0);
    lia.
Qed.

Lemma swap_set_cell board r c v :
  swap_colours (set_cell board r c v)
  = set_cell (swap_colours board) r c (- v).
Proof.
  unfold swap_colours, set_cell. apply map_alter.
  intros row. apply map_insert.
Qed.

Lemma owned_swap board player r c :
  owned (swap_colours board) player r c = owned board (- player) r c.
Proof.
  unfold owned. rewrite get_swap. f_equal.
  destruct (Z.eqb_spec (- get board (Z.to_nat r) (Z.to_nat c)) player),
    (Z.eqb_spec (get board (Z.to_nat r) (Z.to_nat c)) (- player)); lia.
Qed.

Lemma check_win_swap board player row col :
  _check_win (swap_colours board) player row col
  = _check_win board (- player) row col.
Proof.
  unfold _check_win, directions. cbn [existsb].
  f_equal; [|f_equal; [|f_equal; [|f_equal]]];
    apply scan_line_ext; intros step _; apply owned_swap.
Qed.

Lemma apply_move_swap board c player :
  _apply_move (swap_colours board) c player
  = match _apply_move board c (- player) with
    | Some (new_board, row, col) => Some (swap_colours new_board, row, col)
    | None => None
    end.
Proof.
  destruct (_apply_move board c (- player)) as [[[nb i] c']|] eqn:Happly.
  - apply apply_move_Some in Happly as (-> & Hi & Hempty & -> & Hbelow).
    rewrite swap_set_cell, Z.opp_involutive.
    apply apply_move_lands; [done|rewrite get_swap; lia|].
    intros j Hj. rewrite get_swap. specialize (Hbelow j Hj). lia.
  - apply apply_move_None. apply apply_move_None in Happly.
    intros r Hr. rewrite get_swap. specialize (Happly r Hr). lia.
Qed.

Lemma immediate_win_swap board player c :
  immediate_win (swap_colours board) player c
  = immediate_win board (- player) c.
Proof.
  unfold immediate_win. rewrite apply_move_swap.
  destruct (_apply_move board c (- player)) as [[[nb i] c']|]; [|done].
  apply check_win_swap.
Qed.

Lemma winning_moves_swap board player :
  winning_moves (swap_colours board) player
  = winning_moves board (- player).
Proof.
  rewrite !winning_moves_count. do 3 f_equal.
  apply filter_ext. intros c. by rewrite get_swap_zero, immediate_win_swap.
Qed.

Lemma drop_fork_swap board player c :
  drop_fork (swap_colours board) player c = drop_fork board (- player) c.
Proof.
  rewrite <- !drop_fork_loop. rewrite apply_move_swap.
  destruct (_apply_move board c (- player)) as [[[nb i] c']|]; [|done].
  by rewrite winning_moves_swap.
Qed.

Lemma detect_forks_swap board player :
  _detect_forks (swap_colours board) player
  = _detect_forks board (- player).
Proof.
  rewrite !detect_forks_count. do 4 f_equal. unfold fork_cells.
  apply filter_ext. intros [r c]. by rewrite get_swap_zero, drop_fork_swap.
Qed.

Lemma line_count_swap x (l : list (option Z)) :
  line_count x (map (option_map Z.opp) l) = line_count (- x) l.
Proof.
  induction l as [|[y|] l IH]; simpl; [done| |done].
  destruct (Z.eqb_spec (- y) x), (Z.eqb_spec y (- x)); try lia;
    by rewrite IH.
Qed.

Lemma window_score_swap player (w : list (option Z)) :
  window_score player (map (option_map Z.opp) w) = window_score (- player) w.
Proof.
  unfold window_score. rewrite !line_count_swap.
  change (- 0) with 0. reflexivity.
Qed.

Lemma evaluate_line_swap line player :
  _evaluate_line (map (option_map Z.opp) line) player
  = _evaluate_line line (- player).
Proof.
  rewrite !evaluate_line_sum, length_map. apply fold_left_ext_in.
  intros score i _.
  rewrite skipn_map, firstn_map, window_score_swap. done.
Qed.

Lemma line_of_swap board row col dr dc :
  line_of (swap_colours board) row col dr dc
  = map (option_map Z.opp) (line_of board row col dr dc).
Proof.
  unfold line_of. rewrite map_map. apply map_ext. intros step. cbv zeta.
  destruct ((0 <=? row + step * dr) && (row + step * dr <? 6)
            && (0 <=? col + step * dc) && (col + step * dc <? 7)); [|done].
  simpl. by rewrite get_swap.
Qed.

Lemma score_position_swap board row col player :
  _score_position (swap_colours board) row col player
  = _score_position board row col (- player).
Proof.
  rewrite !score_position_lines, !line_of_swap, !evaluate_line_swap. done.
Qed.

Lemma pattern_score_swap board :
  ∀ s s', pattern_score (swap_colours board) s' + pattern_score board s
          = s' + s.
Proof.
  unfold pattern_score. induction cells as [|[r c] l IH]; intros s s'.
  { done. }
  cbn [fold_left]. rewrite IH, get_swap_zero, !score_position_swap.
  change (- (1)) with (-1). change (- (-1)) with 1.
  destruct (get board r c =? 0); lia.
Qed.

End Colours.

(** X16. Exchanging the colours of the board exchanges the roles of the
    two players in move application, win detection, pattern scoring and
    fork detection; the heuristic evaluation is therefore negated except
    for its centre term, which is credited to self only: the evaluations
    of a board and of the colour-swapped board add up to 4 times the
    number of centre cells holding 1 or -1. *)
Theorem evaluation_colour_swap (board : Board) (player : Z) (row col : Z)
  (c : nat) :
  _check_win (swap_colours board) player row col
    = _check_win board (- player) row col
  ∧ _apply_move (swap_colours board) c player
    = match _apply_move board c (- player) with
      | Some (new_board, row, col) => Some (swap_colours new_board, row, col)
      | None => None
      end
  ∧ _score_position (swap_colours board) row col player
    = _score_position board row col (- player)
  ∧ _detect_forks (swap_colours board) player
    = _detect_forks board (- player)
  ∧ ∃ score score',
      _evaluate_board board = Some score
      ∧ _evaluate_board (swap_colours board) = Some score'
      ∧ score + score'
        = 4 * (center_count board + center_count (swap_colours board)).
Proof.
  split; [apply check_win_swap|].
  split; [apply apply_move_swap|].
  split; [apply score_position_swap|].
  split; [apply detect_forks_swap|].
  unfold _evaluate_board.
  rewrite !detect_forks_swap. change (- (1)) with (-1).
  change (- (-1)) with 1. rewrite !detect_forks_count.
  eexists. eexists. split; [done|]. split; [done|].
  pose proof (pattern_score_swap board (0 + center_count board * 4)
                (0 + center_count (swap_colours board) * 4)).
  lia.
Qed.

(** ** The anchored win check against a scan of the whole board *)

Section Anchored.

Lemma owned_set_cell_ne board i c0 v player r c :
  (r, c) ≠ (Z.of_nat i, Z.of_nat c0) →
  owned (set_cell board i c0 v) player r c = owned board player r c.
Proof.
  intros Hne. unfold owned.
  destruct (0 <=? r) eqn:E1; [|done]. destruct (r <? 6) eqn:E2; [|done].
  destruct (0 <=? c) eqn:E3; [|done]. destruct (c <? 7) eqn:E4; [|done].
  simpl. rewrite get_set_cell_ne; [done|].
  intros [= Hr Hc]. apply Hne. f_equal; lia.
Qed.

Lemma four_through_has_four board player row col :
  four_through board player row col → has_four board player.
Proof.
  intros (dr & dc & k & Hdir & Hk & Hrun).
  exists (row + k * dr), (col + k * dc), dr, dc. split; [done|].
  intros j Hj. specialize (Hrun j Hj).
  replace (row + k * dr + j * dr) with (row + (k + j) * dr) by ring.
  by replace (col + k * dc + j * dc) with (col + (k + j) * dc) by ring.
Qed.

(** Four cells in a row either include a given cell or avoid it. *)
Lemma run_hits_or_misses (r c dr dc r0 c0 : Z) :
  (∃ j, 0 <= j <= 3 ∧ r + j * dr = r0 ∧ c + j * dc = c0)
  ∨ (∀ j, 0 <= j <= 3 → (r + j * dr, c + j * dc) ≠ (r0, c0)).
Proof.
  destruct (decide (r + 0 * dr = r0 ∧ c + 0 * dc = c0)) as [?|H0];
    [left; exists 0; split; [lia|done]|].
  destruct (decide (r + 1 * dr = r0 ∧ c + 1 * dc = c0)) as [?|H1];
    [left; exists 1; split; [lia|done]|].
  destruct (decide (r + 2 * dr = r0 ∧ c + 2 * dc = c0)) as [?|H2];
    [left; exists 2; split; [lia|done]|].
  destruct (decide (r + 3 * dr = r0 ∧ c + 3 * dc = c0)) as [?|H3];
    [left; exists 3; split; [lia|done]|].
  right. intros j Hj [= Hr Hc].
  assert (j = 0 ∨ j = 1 ∨ j = 2 ∨ j = 3) as [->|[->|[->| ->]]] by lia; tauto.
Qed.

Lemma anchored_check board c player new_board i :
  _apply_move board c player = Some (new_board, i, c) →
  ¬ has_four board player →
  has_four new_board player
  ↔ _check_win new_board player (Z.of_nat i) (Z.of_nat c) = true.
Proof.
  intros (_ & _ & _ & -> & _)%apply_move_Some Hnone. split.
  - intros (r & c1 & dr & dc & Hdir & Hrun). apply check_win_iff_four.
    destruct (run_hits_or_misses r c1 dr dc (Z.of_nat i) (Z.of_nat c))
      as [(j0 & Hj0 & Hr & Hc)|Hmiss].
    + exists dr, dc, (- j0). split; [done|]. split; [lia|].
      intros j Hj. specialize (Hrun j Hj).
      replace (Z.of_nat i + (- j0 + j) * dr) with (r + j * dr)
        by (rewrite <- Hr; ring).
      by replace (Z.of_nat c + (- j0 + j) * dc) with (c1 + j * dc)
        by (rewrite <- Hc; ring).
    + exfalso. apply Hnone. exists r, c1, dr, dc. split; [done|].
      intros j Hj. rewrite <- (Hrun j Hj). symmetry.
      apply owned_set_cell_ne. by apply Hmiss.
  - intros Hwin%check_win_iff_four. by eapply four_through_has_four.
Qed.

End Anchored.

(** X17. After a piece is dropped on a board on which the player had no
    four in a row anywhere, [_check_win] anchored at the landing cell
    answers [True] exactly when the new board has four in a row of the
    player anywhere: the anchored check loses nothing against a scan of the
    whole board. *)
Theorem check_win_anchored_complete (board new_board : Board) (c i : nat)
  (player : Z) :
  _apply_move board c player = Some (new_board, i, c) →
  ¬ has_four board player →
  has_four new_board player
  ↔ _check_win new_board player (Z.of_nat i) (Z.of_nat c) = true.
Proof. apply anchored_check. Qed.

Lemma check_win_anchored_complete_witness :
  has_four (set_cell three_in_row 5 3 1) 1
  ↔ _check_win (set_cell three_in_row 5 3 1) 1 (Z.of_nat 5) (Z.of_nat 3)
    = true.
Proof.
  apply (check_win_anchored_complete three_in_row
           (set_cell three_in_row 5 3 1) 3 5 1).
  - vm_compute. reflexivity.
  - intros (r & c & dr & dc & Hdir & Hrun).
    assert (∀ j, 0 <= j <= 3 →
              (r + j * dr = 5 ∧ 0 <= c + j * dc <= 2)) as Hpin.
    { intros j Hj. specialize (Hrun j Hj). unfold owned in Hrun.
      rewrite !andb_true_iff, !Z.leb_le, !Z.ltb_lt, Z.eqb_eq in Hrun.
      destruct Hrun as [[[[Hr0 Hr1] Hc0] Hc1] Hget].
      assert (∃ a b, Z.to_nat (r + j * dr) = a ∧ Z.to_nat (c + j * dc) = b
                ∧ (a < 6)%nat ∧ (b < 7)%nat) as (a & b & Ha & Hb & ? & ?).
      { eexists _, _. split; [done|]. split; [done|]. lia. }
      rewrite Ha, Hb in Hget.
      do 6 (destruct a as [|a]; [do 7 (destruct b as [|b];
              [vm_compute in Hget; try discriminate; lia|]); lia|]).
      lia. }
    pose proof (Hpin 0 ltac:(lia)). pose proof (Hpin 1 ltac:(lia)).
    pose proof (Hpin 2 ltac:(lia)). pose proof (Hpin 3 ltac:(lia)).
    simpl in Hdir.
    destruct Hdir as [[= <- <-]|[[= <- <-]|[[= <- <-]|[[= <- <-]|[]]]]];
      lia.
Defined.

(** ** Deeper searches keep forced wins *)

Section Deeper.

Lemma forced_win_deeper winner depth :
  ∀ board maximizing,
    forced_win winner depth board maximizing →
    forced_win winner (S depth) board maximizing.
Proof.
  induction depth as [|depth IH]; intros board maximizing; [done|].
  intros Hforced. cbn [forced_win] in Hforced. cbn [forced_win].
  destruct (eqb maximizing winner).
  - destruct Hforced as (move & Hin & [Hwin|[Hno Hchild]]);
      exists move; (split; [done|]); [by left|right; split; [done|]].
    destruct Hchild as (nb & row & col & Happly & Hnext).
    exists nb, row, col. split; [done|]. by apply IH.
  - destruct Hforced as [Hne Hall]. split; [done|].
    intros move Hin. destruct (Hall move Hin)
      as (Hno & nb & row & col & Happly & Hnext).
    split; [done|]. exists nb, row, col. split; [done|]. by apply IH.
Qed.

End Deeper.

(** X18. A forced win found at some depth is found at every greater depth:
    when the search from the root returns +infinity (or -infinity) at depth
    [d], it returns the same score at depth [d + 1]. *)
Theorem infinite_score_deeper (self : MinimaxPlayer) (board : Board)
  (depth : nat) (maximizing winner : bool) (best : option nat) :
  _minimax self board depth maximizing NegInf PosInf
    = Some (win_score winner, best) →
  ∃ best',
    _minimax self board (S depth) maximizing NegInf PosInf
      = Some (win_score winner, best').
Proof.
  intros Hrun. apply (infinite_score_forced self winner (S depth)).
  apply forced_win_deeper.
  apply (infinite_score_forced self winner depth). by exists best.
Qed.

Lemma infinite_score_deeper_witness :
  ∃ best',
    _minimax (player_of 1 true) three_in_row 2 true NegInf PosInf
      = Some (win_score true, best').
Proof.
  apply (infinite_score_deeper (player_of 1 true) three_in_row 1 true true
           (Some 3%nat)).
  vm_compute. reflexivity.
Defined.

(** ** The move returned can be played *)

(** X19. The column that [play] returns for a board can be played on that
    board: [_apply_move] does not raise for it, whichever player's piece is
    dropped, and the piece lands in that column on a cell that was
    empty. *)
Theorem play_move_applies (self : MinimaxPlayer) (obs : Board) (c : nat)
  (player : Z) :
  play self (Single obs) = Some (Move (Some c)) →
  ∃ new_board row,
    _apply_move obs c player = Some (new_board, row, c)
    ∧ (row < 6)%nat ∧ (c < 7)%nat ∧ get obs row c = 0
    ∧ new_board = set_cell obs row c player.
Proof.
  intros Hplay.
  destruct (minimax_total self obs (max_depth self) true NegInf PosInf)
    as (score & best & Hrun & Hnone & Hsome).
  unfold play, _minimax_decision in Hplay. rewrite Hrun in Hplay.
  injection Hplay as ->.
  assert (In c (valid_moves obs)) as Hin.
  { assert (valid_moves obs ≠ []) as Hne.
    { intros Hnil. by specialize (Hnone Hnil). }
    by destruct (Hsome Hne) as (m & [= <-] & Hin). }
  destruct (apply_move_valid obs c player Hin) as (nb & row & Happly).
  exists nb, row. split; [done|].
  apply apply_move_Some in Happly as (_ & ? & ? & ? & _).
  apply elem_of_valid_moves in Hin as [? _]. done.
Qed.

Lemma play_move_applies_witness :
  ∃ new_board row,
    _apply_move must_block 3 1 = Some (new_board, row, 3%nat)
    ∧ (row < 6)%nat ∧ (3 < 7)%nat ∧ get must_block row 3 = 0
    ∧ new_board = set_cell must_block row 3 1.
Proof.
  apply (play_move_applies (player_of 2 true) must_block 3 1).
  vm_compute. reflexivity.
Defined.

(** ** The simple evaluation sees the winning moves *)

(** X20. The simple evaluation is positive exactly when some legal column
    wins at once for self, and it is a multiple of 100. *)
Theorem simple_evaluate_positive (board : Board) :
  ∃ score n,
    _simple_evaluate_board board = Some score
    ∧ score = 100 * Z.of_nat n
    ∧ (0 < score
       ↔ ∃ c, In c (valid_moves board) ∧ immediate_win board 1 c = true).
Proof.
  rewrite simple_evaluate_count.
  exists (100 * Z.of_nat (length (winning_columns board))),
    (length (winning_columns board)).
  split; [done|]. split; [done|]. unfold winning_columns. split.
  - intros Hpos.
    destruct (List.filter (immediate_win board 1) (valid_moves board))
      as [|c rest] eqn:E; [simpl in Hpos; lia|].
    exists c. apply filter_In. rewrite E. by left.
  - intros (c & Hin & Hwin).
    assert (In c (List.filter (immediate_win board 1) (valid_moves board)))
      as Hc by (by apply filter_In).
    destruct (List.filter (immediate_win board 1) (valid_moves board));
      [done|]. simpl. lia.
Qed.
